(** * ParkingLot: a shallow embedding of [Parkinglot.cc] and its properties

    The development follows the source file top to bottom: the common
    enumerations, the slot inventory, ticketing, the fee strategies, the
    payment processors, the billing ledger ([PaymentService]) and the
    allocation engine ([ParkingLot]), then the JSON configuration loader.

    Modelling conventions.
    - [unsigned long long] values ([TicketId], [BillId], amounts, minutes)
      are integers in [Z]; every arithmetic operation of the source on them
      is followed by [wrap64], the reduction modulo 2^64 that C++ prescribes
      for unsigned arithmetic.
    - [int] loop indices are integers in [Z] ([-1] is the source's "not
      found"); vectors are lists.  Signed overflow is undefined behaviour in
      C++, so the model covers the executions in which vector sizes and the
      occupancy counters fit in [int].
    - [std::unordered_map] is a [gmap]; [emplace] keeps an existing entry.
    - [std::chrono::system_clock::time_point] is the tick count since the
      epoch, a 64-bit signed count of nanoseconds, in [Z]; the clock
      reading [now] is an argument of the operations that read the clock.
      The clock arithmetic of the source is done on that 64-bit count and
      is followed by [wrap_i64], the two's-complement reduction that the
      compiled program performs.
    - A member function that mutates its object returns an [outcome]: the
      returned value or the exception thrown, together with the state the
      object is left in.
    - The mutexes are not modelled: the embedding describes one call at a
      time, which is what the locks enforce for the calls that take them. *)

From Stdlib Require Import ZArith Lia Ascii.
From stdpp Require Import gmap strings list fin_maps pretty.

Open Scope Z_scope.

(** ** Common *)

Definition wrap64 (z : Z) : Z := z mod 2 ^ 64.

Definition ULLONG_MAX : Z := 2 ^ 64 - 1.

(** The range of the 64-bit signed counts of [std::chrono], and the
    reduction into it. *)
Definition INT64_MIN : Z := - 2 ^ 63.
Definition INT64_MAX : Z := 2 ^ 63 - 1.

Definition wrap_i64 (z : Z) : Z := (z + 2 ^ 63) mod 2 ^ 64 - 2 ^ 63.

Inductive VehicleType := Bike | Car | Truck.
Inductive SlotType := TwoWheeler | FourWheeler | Heavy.

#[global] Instance VehicleType_eq_dec : EqDecision VehicleType.
Proof. solve_decision. Defined.
#[global] Instance SlotType_eq_dec : EqDecision SlotType.
Proof. solve_decision. Defined.

(** The exceptions of the program: [throw runtime_error(msg)], and the
    exceptions that the JSON library raises on a malformed document or on
    a value of the wrong type. *)
Inductive exn := runtime_error (what : string) | json_exception.

#[global] Instance exn_eq_dec : EqDecision exn.
Proof. solve_decision. Defined.

(** The result of a call on a mutable object of state [S]. *)
Inductive outcome (S A : Type) :=
| Ret (a : A) (s : S)
| Throw (e : exn) (s : S).
Arguments Ret {S A} a s.
Arguments Throw {S A} e s.

Definition state_after {S A} (o : outcome S A) : S :=
  match o with Ret _ s => s | Throw _ s => s end.

Definition throws {S A} (o : outcome S A) : Prop :=
  match o with Ret _ _ => False | Throw _ _ => True end.

Definition returns {S A} (o : outcome S A) : Prop :=
  match o with Ret _ _ => True | Throw _ _ => False end.

(** ** Vehicle *)

Module Vehicle.
Record t := mk { regNo : string; type : VehicleType }.
End Vehicle.

Definition slotFor (t : VehicleType) : SlotType :=
  match t with
  | Bike => TwoWheeler
  | Car => FourWheeler
  | Truck => Heavy
  end.

(** ** Core model *)

Module ParkingSlot.
Record t := mk { id : string; type : SlotType; isFree : bool }.
End ParkingSlot.

Module Floor.
Record t := mk { floorNo : Z; slots : list ParkingSlot.t }.
End Floor.

#[global] Instance ParkingSlot_inhabited : Inhabited ParkingSlot.t :=
  populate (ParkingSlot.mk "" TwoWheeler true).
#[global] Instance Floor_inhabited : Inhabited Floor.t :=
  populate (Floor.mk 0 []).

(** [Floor::findFreeIndex]: the loop over [i = 0 .. size-1], entered at
    index [i] with the slots from [i] on still to visit. *)
Fixpoint findFreeIndex_from (i : Z) (slots : list ParkingSlot.t) (t : SlotType) : Z :=
  match slots with
  | [] => -1
  | s :: rest =>
      if bool_decide (ParkingSlot.type s = t) && ParkingSlot.isFree s then i
      else findFreeIndex_from (i + 1) rest t
  end.

Definition findFreeIndex (fl : Floor.t) (t : SlotType) : Z :=
  findFreeIndex_from 0 (Floor.slots fl) t.

Module Ticket.
Record t := mk {
    id : Z;
    entryGateId : string;
    inTime : Z;
    slotId : string;
    vtype : VehicleType;
    stype : SlotType;
    vehicleReg : string
  }.
End Ticket.

Module TicketingService.
Record t := mk { nextId : Z }.
End TicketingService.

(** [TicketingService::openTicket]; [nextId.fetch_add(1)] yields the old
    counter and stores its successor. *)
Definition openTicket (svc : TicketingService.t) (gate : string)
    (slot : ParkingSlot.t) (v : Vehicle.t) (now : Z)
    : Ticket.t * TicketingService.t :=
  (Ticket.mk (TicketingService.nextId svc) gate now (ParkingSlot.id slot)
     (Vehicle.type v) (ParkingSlot.type slot) (Vehicle.regNo v),
   TicketingService.mk (wrap64 (TicketingService.nextId svc + 1))).

(** ** Pricing *)

Module FeeBreakup.
Record t := mk { amount : Z; billedHours : Z; parkedMinutes : Z }.
End FeeBreakup.

(** [IFeeStrategy::ceilHours], on [unsigned long long]. *)
Definition ceilHours (minutes : Z) : Z :=
  if decide (minutes = 0) then 0 else wrap64 (minutes + 59) / 60.

Definition GRACE_MINUTES : Z := 10.

(** The interface [IFeeStrategy]: one virtual member, [compute]. *)
Class IFeeStrategy := { compute : Z → FeeBreakup.t }.

Definition TwoWheelerFee : IFeeStrategy :=
  {| compute minutes :=
       if decide (minutes ≤ GRACE_MINUTES) then FeeBreakup.mk 0 0 minutes
       else let hours := ceilHours minutes in
            FeeBreakup.mk (wrap64 (hours * 10)) hours minutes |}.

Definition FourWheelerFee : IFeeStrategy :=
  {| compute minutes :=
       if decide (minutes ≤ GRACE_MINUTES) then FeeBreakup.mk 0 0 minutes
       else let hours := ceilHours minutes in
            FeeBreakup.mk (wrap64 (hours * 20)) hours minutes |}.

Definition HeavyFee : IFeeStrategy :=
  {| compute minutes :=
       if decide (minutes ≤ GRACE_MINUTES) then FeeBreakup.mk 0 0 minutes
       else let hours := ceilHours minutes in
            FeeBreakup.mk (wrap64 (hours * 50)) hours minutes |}.

(** [FeeStrategyFactory::make]; the [throw] after the switch is
    unreachable for a value of the enumeration. *)
Definition FeeStrategyFactory_make (s : SlotType) : IFeeStrategy :=
  match s with
  | TwoWheeler => TwoWheelerFee
  | FourWheeler => FourWheelerFee
  | Heavy => HeavyFee
  end.

(** The hourly rate that each strategy multiplies by. *)
Definition rate (s : SlotType) : Z :=
  match s with TwoWheeler => 10 | FourWheeler => 20 | Heavy => 50 end.

(** ** Payment interfaces *)

Inductive PaymentMethod := Cash | Card | UPI.

#[global] Instance PaymentMethod_eq_dec : EqDecision PaymentMethod.
Proof. solve_decision. Defined.

Module PaymentRequest.
Record t := mk {
    bill : Z;
    amount : Z;
    method : PaymentMethod;
    cardNumber : string;
    upiVPA : string
  }.

(** The same request carrying the amount [a]. *)
Definition set_amount (a : Z) (req : t) : t :=
  mk (bill req) a (method req) (cardNumber req) (upiVPA req).
End PaymentRequest.

(** [std::string::find(char)]: the first position holding [c], [None] for
    [npos]. *)
Fixpoint string_find_from (pos : nat) (c : ascii) (s : string) : option nat :=
  match s with
  | EmptyString => None
  | String a rest =>
      if decide (a = c) then Some pos else string_find_from (S pos) c rest
  end.

Definition string_find (c : ascii) (s : string) : option nat :=
  string_find_from 0 c s.

(** The interface [IPaymentProcessor].  [charge] takes the request and the
    caller's [failureReason] and returns the verdict with the reason as the
    call leaves it. *)
Record IPaymentProcessor := {
  charge : PaymentRequest.t → string → bool * string;
  name : string
}.

Definition CashProcessor : IPaymentProcessor :=
  {| charge _ failureReason := (true, failureReason);
     name := "Cash" |}.

Definition CardProcessor : IPaymentProcessor :=
  {| charge req failureReason :=
       if decide (String.length (PaymentRequest.cardNumber req) < 8)%nat
       then (false, "Card declined (invalid number)"%string)
       else (true, failureReason);
     name := "Card" |}.

Definition UPIProcessor : IPaymentProcessor :=
  {| charge req failureReason :=
       match string_find "@"%char (PaymentRequest.upiVPA req) with
       | None => (false, "UPI failed (invalid VPA)"%string)
       | Some _ => (true, failureReason)
       end;
     name := "UPI" |}.

Definition makeProcessor (m : PaymentMethod) : IPaymentProcessor :=
  match m with
  | Cash => CashProcessor
  | Card => CardProcessor
  | UPI => UPIProcessor
  end.

(** ** Billing *)

Inductive BillStatus := Pending | Paid | Failed | Cancelled.

#[global] Instance BillStatus_eq_dec : EqDecision BillStatus.
Proof. solve_decision. Defined.

Module Bill.
Record t := mk {
    id : Z;
    ticket : Z;
    vehicleReg : string;
    slotId : string;
    entryGateId : string;
    exitGateId : string;
    inTime : Z;
    outTime : Z;
    parkedMinutes : Z;
    billedHours : Z;
    amount : Z;
    status : BillStatus
  }.

  (** [b.status = st] *)
Definition set_status (st : BillStatus) (b : t) : t :=
    mk (id b) (ticket b) (vehicleReg b) (slotId b) (entryGateId b)
       (exitGateId b) (inTime b) (outTime b) (parkedMinutes b)
       (billedHours b) (amount b) st.
End Bill.

Module Receipt.
Record t := mk {
    bill : Z;
    ticket : Z;
    amount : Z;
    method : string;
    paidAt : Z
  }.
End Receipt.

(** [unordered_map::emplace]: inserts unless the key is present. *)
Definition emplace {V} (k : Z) (v : V) (m : gmap Z V) : gmap Z V :=
  match m !! k with
  | Some _ => m
  | None => <[k := v]> m
  end.

(** ** Services *)

Module PaymentService.
Record t := mk { bills_ : gmap Z Bill.t; nextBill_ : Z }.
End PaymentService.

Definition createBill (svc : PaymentService.t) (tk : Ticket.t)
    (exitGate : string) (fb : FeeBreakup.t) (now : Z)
    : Bill.t * PaymentService.t :=
  let b := Bill.mk (PaymentService.nextBill_ svc) (Ticket.id tk)
             (Ticket.vehicleReg tk) (Ticket.slotId tk) (Ticket.entryGateId tk)
             exitGate (Ticket.inTime tk) now
             (FeeBreakup.parkedMinutes fb) (FeeBreakup.billedHours fb)
             (FeeBreakup.amount fb) Pending in
  (b, PaymentService.mk (emplace (Bill.id b) b (PaymentService.bills_ svc))
        (wrap64 (PaymentService.nextBill_ svc + 1))).

Definition get (svc : PaymentService.t) (id : Z) : option Bill.t :=
  PaymentService.bills_ svc !! id.

(** [it->second.status = st] on the entry found under [id]. *)
Definition store_status (id : Z) (st : BillStatus) (svc : PaymentService.t)
    : PaymentService.t :=
  PaymentService.mk (alter (Bill.set_status st) id (PaymentService.bills_ svc))
    (PaymentService.nextBill_ svc).

(** [PaymentService::pay].  The first component lists the requests handed
    to a processor's [charge] during the call, in order; the second is the
    receipt or the exception, with the ledger as the call leaves it. *)
Definition pay (svc : PaymentService.t) (req : PaymentRequest.t) (now : Z)
    : list PaymentRequest.t * outcome PaymentService.t Receipt.t :=
  match PaymentService.bills_ svc !! PaymentRequest.bill req with
  | None => ([], Throw (runtime_error "Bill not found") svc)
  | Some b =>
      if decide (Bill.status b = Paid) then
        ([], Ret (Receipt.mk (Bill.id b) (Bill.ticket b) (Bill.amount b)
                    "ALREADY_PAID" now) svc)
      else if decide (Bill.status b ≠ Pending) then
        ([], Throw (runtime_error "Bill is not payable (status != Pending)") svc)
      else
        let proc := makeProcessor (PaymentRequest.method req) in
        let '(ok, reason) := charge proc req "" in
        if negb ok then
          ([req], Throw (runtime_error (String.append "Payment failed: " reason))
                   (store_status (PaymentRequest.bill req) Failed svc))
        else
          ([req], Ret (Receipt.mk (Bill.id b) (Bill.ticket b) (Bill.amount b)
                         (name proc) now)
                   (store_status (PaymentRequest.bill req) Paid svc))
  end.

Definition cancel (svc : PaymentService.t) (id : Z)
    : outcome PaymentService.t unit :=
  match PaymentService.bills_ svc !! id with
  | None => Throw (runtime_error "Bill not found") svc
  | Some b =>
      if decide (Bill.status b = Paid) then
        Throw (runtime_error "Cannot cancel a paid bill") svc
      else Ret tt (store_status id Cancelled svc)
  end.

Definition reset (svc : PaymentService.t) : PaymentService.t :=
  PaymentService.mk ∅ 1.

(** ** The allocation engine *)

Module ParkingLot.
Record t := mk {
    floors_ : list Floor.t;
    active_ : gmap Z Ticket.t;
    ticketSvc_ : TicketingService.t;
    paymentSvc_ : PaymentService.t
  }.
End ParkingLot.

(** [ParkingLot::configure] *)
Definition configure (fs : list Floor.t) (lot : ParkingLot.t) : ParkingLot.t :=
  ParkingLot.mk fs ∅ (TicketingService.mk 1) (reset (ParkingLot.paymentSvc_ lot)).

(** The floor loop of [enterVehicle], entered at floor [f] with the floors
    from [f] on still to visit; yields [(chosenFloor, idx)]. *)
Fixpoint enter_scan (f : Z) (floors : list Floor.t) (need : SlotType) : Z * Z :=
  match floors with
  | [] => (-1, -1)
  | fl :: rest =>
      let idx := findFreeIndex fl need in
      if decide (idx ≠ -1) then (f, idx) else enter_scan (f + 1) rest need
  end.

(** [floors_[f].slots[i]] *)
Definition slot_at (floors : list Floor.t) (f i : Z) : ParkingSlot.t :=
  Floor.slots (floors !!! Z.to_nat f) !!! Z.to_nat i.

(** [s] with [isFree] set to [b]. *)
Definition with_isFree (b : bool) (s : ParkingSlot.t) : ParkingSlot.t :=
  ParkingSlot.mk (ParkingSlot.id s) (ParkingSlot.type s) b.

(** [floors_[f].slots[i].isFree = b] *)
Definition store_isFree (b : bool) (f i : nat) (floors : list Floor.t)
    : list Floor.t :=
  alter (λ fl, Floor.mk (Floor.floorNo fl)
                 (alter (with_isFree b) i (Floor.slots fl)))
    f floors.

Definition enterVehicle (lot : ParkingLot.t) (entryGate : string)
    (v : Vehicle.t) (now : Z) : outcome ParkingLot.t Z :=
  let need := slotFor (Vehicle.type v) in
  let '(chosenFloor, idx) := enter_scan 0 (ParkingLot.floors_ lot) need in
  if decide (chosenFloor = -1) then
    Throw (runtime_error "No free slot available") lot
  else
    let floors' := store_isFree false (Z.to_nat chosenFloor) (Z.to_nat idx)
                     (ParkingLot.floors_ lot) in
    let slot := slot_at floors' chosenFloor idx in
    let '(tk, svc') := openTicket (ParkingLot.ticketSvc_ lot) entryGate slot v now in
    let tid := Ticket.id tk in
    Ret tid (ParkingLot.mk floors' (emplace tid tk (ParkingLot.active_ lot))
               svc' (ParkingLot.paymentSvc_ lot)).

(** The slot loop of [findSlotById_nolock] within one floor. *)
Fixpoint find_slot_from (i : nat) (slots : list ParkingSlot.t) (sid : string)
    : option nat :=
  match slots with
  | [] => None
  | s :: rest =>
      if decide (ParkingSlot.id s = sid) then Some i
      else find_slot_from (S i) rest sid
  end.

(** [ParkingLot::findSlotById_nolock]: the pointer it returns is the
    position (floor, slot) of the slot it points to; [None] is [nullptr]. *)
Fixpoint findSlotById_from (f : nat) (floors : list Floor.t) (sid : string)
    : option (nat * nat) :=
  match floors with
  | [] => None
  | fl :: rest =>
      match find_slot_from 0 (Floor.slots fl) sid with
      | Some i => Some (f, i)
      | None => findSlotById_from (S f) rest sid
      end
  end.

Definition findSlotById_nolock (lot : ParkingLot.t) (sid : string)
    : option (nat * nat) :=
  findSlotById_from 0 (ParkingLot.floors_ lot) sid.

(** Ticks of [system_clock] in one minute (the clock counts nanoseconds). *)
Definition TICKS_PER_MINUTE : Z := 60000000000.

Definition LOST_TICKET_PENALTY : Z := 200.

(** [duration_cast<minutes>(now - inTime).count()], clamped at zero: the
    difference of the two tick counts in 64 bits, then the division that
    truncates towards zero. *)
Definition elapsed_minutes (now inTime : Z) : Z :=
  let mins := Z.quot (wrap_i64 (now - inTime)) TICKS_PER_MINUTE in
  if decide (mins < 0) then 0 else mins.

(** [fb.amount += LOST_TICKET_PENALTY] *)
Definition add_penalty (fb : FeeBreakup.t) : FeeBreakup.t :=
  FeeBreakup.mk (wrap64 (FeeBreakup.amount fb + LOST_TICKET_PENALTY))
    (FeeBreakup.billedHours fb) (FeeBreakup.parkedMinutes fb).

(** [ParkingLot::exitVehicle].  The body reads the clock twice: [now] for
    the parked duration and, inside [createBill], [out] for the bill's
    [outTime]. *)
Definition exitVehicle (lot : ParkingLot.t) (tid : Z) (exitGate : string)
    (lostTicket : bool) (now out : Z) : outcome ParkingLot.t Bill.t :=
  match ParkingLot.active_ lot !! tid with
  | None => Throw (runtime_error "Invalid or already-closed ticket") lot
  | Some tk =>
      let active' := delete tid (ParkingLot.active_ lot) in
      match findSlotById_nolock lot (Ticket.slotId tk) with
      | None =>
          Throw (runtime_error
                   (String.append "Slot referenced by ticket not found: "
                      (Ticket.slotId tk)))
            (ParkingLot.mk (ParkingLot.floors_ lot) active'
               (ParkingLot.ticketSvc_ lot) (ParkingLot.paymentSvc_ lot))
      | Some (f, i) =>
          let floors' := store_isFree true f i (ParkingLot.floors_ lot) in
          let mins := elapsed_minutes now (Ticket.inTime tk) in
          let strategy := FeeStrategyFactory_make (Ticket.stype tk) in
          let fb := @compute strategy (wrap64 mins) in
          let fb := if lostTicket then add_penalty fb else fb in
          let '(bill, psvc') :=
            createBill (ParkingLot.paymentSvc_ lot) tk exitGate fb out in
          Ret bill (ParkingLot.mk floors' active'
                      (ParkingLot.ticketSvc_ lot) psvc')
      end
  end.

(** [ParkingLot::payBill]; as for [pay], the requests handed to a
    processor come first. *)
Definition payBill (lot : ParkingLot.t) (req : PaymentRequest.t) (now : Z)
    : list PaymentRequest.t * outcome ParkingLot.t Receipt.t :=
  let with_ledger svc :=
    ParkingLot.mk (ParkingLot.floors_ lot) (ParkingLot.active_ lot)
      (ParkingLot.ticketSvc_ lot) svc in
  match pay (ParkingLot.paymentSvc_ lot) req now with
  | (log, Ret r svc) => (log, Ret r (with_ledger svc))
  | (log, Throw e svc) => (log, Throw e (with_ledger svc))
  end.

(** [it->second.inTime -= minutes(minutesBack)]: the minutes are
    converted to ticks, then subtracted, both in 64 bits. *)
Definition shift_inTime (minutesBack : Z) (tk : Ticket.t) : Ticket.t :=
  Ticket.mk (Ticket.id tk) (Ticket.entryGateId tk)
    (wrap_i64 (Ticket.inTime tk - wrap_i64 (minutesBack * TICKS_PER_MINUTE)))
    (Ticket.slotId tk) (Ticket.vtype tk) (Ticket.stype tk)
    (Ticket.vehicleReg tk).

Definition adjustInTimeForTest (lot : ParkingLot.t) (tid : Z) (minutesBack : Z)
    : outcome ParkingLot.t unit :=
  match ParkingLot.active_ lot !! tid with
  | None => Throw (runtime_error "Ticket not found for adjustInTime") lot
  | Some _ =>
      Ret tt (ParkingLot.mk (ParkingLot.floors_ lot)
                (alter (shift_inTime minutesBack) tid (ParkingLot.active_ lot))
                (ParkingLot.ticketSvc_ lot) (ParkingLot.paymentSvc_ lot))
  end.

(** One round of the inner loop of [occupancy] on the counters
    [(freeCnt, usedCnt, total)]. *)
Definition occupancy_slot (acc : Z * Z * Z) (s : ParkingSlot.t) : Z * Z * Z :=
  let '(freeCnt, usedCnt, total) := acc in
  if ParkingSlot.isFree s then (freeCnt + 1, usedCnt, total + 1)
  else (freeCnt, usedCnt + 1, total + 1).

(** [ParkingLot::occupancy]: the three output references as a triple. *)
Definition occupancy (lot : ParkingLot.t) : Z * Z * Z :=
  foldl (λ acc fl, foldl occupancy_slot acc (Floor.slots fl)) (0, 0, 0)
    (ParkingLot.floors_ lot).

Definition activeCount (lot : ParkingLot.t) : Z :=
  Z.of_nat (size (ParkingLot.active_ lot)).


(** ** JSON helpers

    The JSON library is not part of the program.  A document is a [json]
    value; a number is given by the integer that [get<int>] reads from it
    before narrowing (for a fractional number, its truncation);
    [contains] and [at] look a key up among the members of an object. *)

#[local] Unset Elimination Schemes.
Inductive json :=
| JNull
| JBool (b : bool)
| JNumber (n : Z)
| JString (s : string)
| JArray (items : list json)
| JObject (members : list (string * json)).
#[local] Set Elimination Schemes.

(** Code that may throw and has no state to leave behind. *)
#[global] Instance exn_bind : MBind (sum exn) :=
  λ A B k r, match r with inl e => inl e | inr a => k a end.

Definition slotTypeFromString (s : string) : exn + SlotType :=
  if decide (s = "TwoWheeler") then inr TwoWheeler
  else if decide (s = "FourWheeler") then inr FourWheeler
  else if decide (s = "Heavy") then inr Heavy
  else inl (runtime_error (String.append "Invalid SlotType in config: " s)).

Fixpoint member (key : string) (members : list (string * json)) : option json :=
  match members with
  | [] => None
  | (k, v) :: rest => if decide (k = key) then Some v else member key rest
  end.

Definition must (j : json) (key : string) : exn + json :=
  match j with
  | JObject members =>
      match member key members with
      | Some v => inr v
      | None => inl (runtime_error (String.append "Config missing key: " key))
      end
  | _ => inl (runtime_error (String.append "Config missing key: " key))
  end.

(** Narrowing to [int]. *)
Definition to_int (n : Z) : Z := (n + 2 ^ 31) mod 2 ^ 32 - 2 ^ 31.

(** [j.get<int>()] *)
Definition get_int (j : json) : exn + Z :=
  match j with
  | JNumber n => inr (to_int n)
  | JBool b => inr (if b then 1 else 0)
  | _ => inl json_exception
  end.

(** [j.get<string>()] *)
Definition get_string (j : json) : exn + string :=
  match j with
  | JString s => inr s
  | _ => inl json_exception
  end.

(** [std::to_string(int)] *)
Definition to_string (n : Z) : string := pretty n.

(** What opening and parsing the file at a path gives. *)
Inductive file := NoFile | Malformed | Document (j : json).

(** The slot loop of [loadConfigFromJson]: [slots] is [fl.slots] so far. *)
Fixpoint load_slots (jslots : list json) (slots : list ParkingSlot.t)
    : exn + list ParkingSlot.t :=
  match jslots with
  | [] => inr slots
  | js :: rest =>
      jid ← must js "id";
      id ← get_string jid;
      jtype ← must js "type";
      ty ← get_string jtype;
      t ← slotTypeFromString ty;
      load_slots rest (slots ++ [ParkingSlot.mk id t true])
  end.

(** One round of the floor loop. *)
Definition load_floor (jf : json) : exn + Floor.t :=
  jno ← must jf "floorNo";
  floorNo ← get_int jno;
  jslots ← must jf "slots";
  match jslots with
  | JArray items =>
      slots ← load_slots items [];
      match slots with
      | [] => inl (runtime_error
                     (String.append "Floor "
                        (String.append (to_string floorNo)
                           " has no slots in config")))
      | _ => inr (Floor.mk floorNo slots)
      end
  | _ => inl (runtime_error
                (String.append "Config 'slots' must be an array for floor "
                   (to_string floorNo)))
  end.

(** The floor loop: [fs] is the vector built so far. *)
Fixpoint load_floors (jfloors : list json) (fs : list Floor.t)
    : exn + list Floor.t :=
  match jfloors with
  | [] => inr fs
  | jf :: rest => fl ← load_floor jf; load_floors rest (fs ++ [fl])
  end.

Definition loadConfigFromJson (disk : string → file) (path : string)
    : exn + list Floor.t :=
  match disk path with
  | NoFile =>
      inl (runtime_error (String.append "Could not open config file: " path))
  | Malformed => inl json_exception
  | Document j =>
      jfloors ← must j "floors";
      match jfloors with
      | JArray items =>
          fs ← load_floors items [];
          match fs with
          | [] => inl (runtime_error "Config has zero floors")
          | _ => inr fs
          end
      | _ => inl (runtime_error "Config 'floors' must be an array")
      end
  end.

(** ** Call sequences

    The calls a client can make on a [PaymentService] that keep its bills
    ([reset] discards them), and the ledger each call leaves behind,
    whether it returns or throws. *)

Inductive LedgerCall :=
| CreateBill (tk : Ticket.t) (exitGate : string) (fb : FeeBreakup.t) (now : Z)
| Pay (req : PaymentRequest.t) (now : Z)
| Cancel (id : Z).

Definition ledger_step (svc : PaymentService.t) (c : LedgerCall)
    : PaymentService.t :=
  match c with
  | CreateBill tk exitGate fb now => (createBill svc tk exitGate fb now).2
  | Pay req now => state_after (pay svc req now).2
  | Cancel id => state_after (cancel svc id)
  end.

Definition ledger_run (calls : list LedgerCall) (svc : PaymentService.t)
    : PaymentService.t :=
  foldl ledger_step svc calls.

(** The moves of a bill's status that the ledger makes: out of [Pending]
    to any status, and from [Failed] to [Cancelled]; [forward] adds
    staying put. *)
Definition forward (s s' : BillStatus) : Prop :=
  s = s' ∨ s = Pending ∨ (s = Failed ∧ s' = Cancelled).

(** ** Worked examples: a ledger holding one bill *)

Definition demo_ticket : Ticket.t :=
  Ticket.mk 1 "E2" 0 "F1-S3" Car FourWheeler "DL8CAF1234".

Definition empty_ledger : PaymentService.t := PaymentService.mk ∅ 1.

(** Bill 1, [Pending], amount 20. *)
Definition demo_ledger : PaymentService.t :=
  (createBill empty_ledger demo_ticket "X2" (FeeBreakup.mk 20 1 30) 1800).2.

Definition demo_bill : Bill.t :=
  Bill.mk 1 1 "DL8CAF1234" "F1-S3" "E2" "X2" 0 1800 30 1 20 Pending.

Definition cash_request : PaymentRequest.t :=
  PaymentRequest.mk 1 0 Cash "" "".

Definition short_card_request : PaymentRequest.t :=
  PaymentRequest.mk 1 20 Card "4242" "".

(** The ledger after the card processor declined bill 1. *)
Definition declined_ledger : PaymentService.t :=
  state_after (pay demo_ledger short_card_request 1900).2.

(** ** The slot inventory seen as one sequence *)

(** All slots, floor by floor, in the order every loop of the source
    visits them. *)
Definition all_slots (floors : list Floor.t) : list ParkingSlot.t :=
  concat (Floor.slots <$> floors).

(** The slot at floor position [f], slot position [i], if there is one. *)
Definition slot_lookup (floors : list Floor.t) (f i : nat)
    : option ParkingSlot.t :=
  fl ← floors !! f; Floor.slots fl !! i.

(** What [findFreeIndex] tests a slot for. *)
Definition wanted (t : SlotType) (s : ParkingSlot.t) : Prop :=
  ParkingSlot.type s = t ∧ ParkingSlot.isFree s = true.

(** The calls a client can make on a configured [ParkingLot], and the lot
    each call leaves behind, whether it returns or throws. *)
Inductive LotCall :=
| Enter (entryGate : string) (v : Vehicle.t) (now : Z)
| Exit (tid : Z) (exitGate : string) (lostTicket : bool) (now out : Z)
| PayBill (req : PaymentRequest.t) (now : Z)
| AdjustInTime (tid : Z) (minutesBack : Z).

Definition lot_step (lot : ParkingLot.t) (c : LotCall) : ParkingLot.t :=
  match c with
  | Enter entryGate v now => state_after (enterVehicle lot entryGate v now)
  | Exit tid exitGate lostTicket now out =>
      state_after (exitVehicle lot tid exitGate lostTicket now out)
  | PayBill req now => state_after (payBill lot req now).2
  | AdjustInTime tid minutesBack =>
      state_after (adjustInTimeForTest lot tid minutesBack)
  end.

Definition lot_run (calls : list LotCall) (lot : ParkingLot.t) : ParkingLot.t :=
  foldl lot_step lot calls.

(** A default-constructed [ParkingLot]. *)
Definition new_lot : ParkingLot.t :=
  ParkingLot.mk [] ∅ (TicketingService.mk 1) (PaymentService.mk ∅ 1).

(** The number of slots of a sequence with [isFree == false], and with
    [isFree == true]. *)
Definition used_count (l : list ParkingSlot.t) : nat :=
  length (filter (λ s, ParkingSlot.isFree s = false) l).

Definition free_count (l : list ParkingSlot.t) : nat :=
  length (filter (λ s, ParkingSlot.isFree s = true) l).

(** The invariant of a configured lot after at most [n] calls: slot ids
    are pairwise distinct, the ticket counter has not wrapped, every active
    ticket is bound to an occupied slot, no two active tickets are bound to
    the same slot id, and the occupied slots are as many as the active
    tickets. *)
Record lot_inv (n : Z) (lot : ParkingLot.t) : Prop := {
  inv_ids : NoDup (ParkingSlot.id <$> all_slots (ParkingLot.floors_ lot));
  inv_next : 1 ≤ TicketingService.nextId (ParkingLot.ticketSvc_ lot) ≤ 1 + n;
  inv_keys : ∀ k tk, ParkingLot.active_ lot !! k = Some tk →
               1 ≤ k < TicketingService.nextId (ParkingLot.ticketSvc_ lot);
  inv_slot : ∀ k tk, ParkingLot.active_ lot !! k = Some tk →
               ∃ s, s ∈ all_slots (ParkingLot.floors_ lot) ∧
                    ParkingSlot.id s = Ticket.slotId tk ∧
                    ParkingSlot.isFree s = false;
  inv_inj : ∀ k1 k2 tk1 tk2,
              ParkingLot.active_ lot !! k1 = Some tk1 →
              ParkingLot.active_ lot !! k2 = Some tk2 →
              Ticket.slotId tk1 = Ticket.slotId tk2 → k1 = k2;
  inv_count : used_count (all_slots (ParkingLot.floors_ lot))
              = size (ParkingLot.active_ lot)
}.

(** ** Worked examples: two layouts *)

(** Two floors, five slots, distinct ids, all free. *)
Definition demo_floors : list Floor.t :=
  [Floor.mk 1 [ParkingSlot.mk "F1-S1" TwoWheeler true;
               ParkingSlot.mk "F1-S2" TwoWheeler true;
               ParkingSlot.mk "F1-S3" FourWheeler true];
   Floor.mk 2 [ParkingSlot.mk "F2-S1" FourWheeler true;
               ParkingSlot.mk "F2-S2" Heavy true]].

Definition demo_bike : Vehicle.t := Vehicle.mk "UP80 HM 8086" Bike.
Definition demo_car : Vehicle.t := Vehicle.mk "DL8CAF1234" Car.

(** The calls of [main] up to the second exit, on ticks counted from 0. *)
Definition demo_calls : list LotCall :=
  [Enter "E1" demo_bike 0; Enter "E2" demo_car 0;
   AdjustInTime 1 95; AdjustInTime 2 7;
   Exit 1 "X1" false 0 0; Exit 2 "X2" false 0 0].

(** One floor whose two slots carry the same id, both free. *)
Definition twin_floors : list Floor.t :=
  [Floor.mk 1 [ParkingSlot.mk "S1" TwoWheeler true;
               ParkingSlot.mk "S1" TwoWheeler true]].

(** Two bikes enter, then the second ticket exits, then the first. *)
Definition twin_calls : list LotCall :=
  [Enter "E1" demo_bike 0; Enter "E1" demo_bike 0;
   Exit 2 "X1" false 0 0; Exit 1 "X1" false 0 0].

(** The twin lot after the first [k] of these calls. *)
Definition twin_lot (k : nat) : ParkingLot.t :=
  lot_run (take k twin_calls) (configure twin_floors new_lot).

(** ** Failing calls *)







(** A car entered [demo_floors] and its entry time was moved back by 30
    minutes. *)
Definition lost_lot : ParkingLot.t :=
  lot_run [Enter "E3" demo_car 0; AdjustInTime 1 30]
    (configure demo_floors new_lot).

Definition lost_ticket : Ticket.t :=
  Ticket.mk 1 "E3" (- 30 * TICKS_PER_MINUTE) "F1-S3" Car FourWheeler "DL8CAF1234".

(** A truck arrives at [demo_floors] after another took the one heavy slot. *)
Definition full_heavy_lot : ParkingLot.t :=
  lot_run [Enter "E1" (Vehicle.mk "HR55 T 0001" Truck) 0]
    (configure demo_floors new_lot).

(** ** Worked examples: configuration documents *)

Definition demo_document : json :=
  JObject
    [("floors",
      JArray
        [JObject
           [("floorNo", JNumber 1);
            ("slots",
             JArray
               [JObject [("id", JString "F1-S1"); ("type", JString "TwoWheeler")];
                JObject [("id", JString "F1-S2"); ("type", JString "FourWheeler")]])]])].

(** A document whose second floor has no slots. *)
Definition bare_floor_document : json :=
  JObject
    [("floors",
      JArray
        [JObject
           [("floorNo", JNumber 1);
            ("slots",
             JArray
               [JObject [("id", JString "F1-S1"); ("type", JString "Heavy")]])];
         JObject [("floorNo", JNumber 2); ("slots", JArray [])]])].

(** A disk holding the two documents, and one with no floors. *)
Definition demo_disk (path : string) : file :=
  if decide (path = "parking_config.json") then Document demo_document
  else if decide (path = "bare_floor.json") then Document bare_floor_document
  else if decide (path = "no_floors.json")
       then Document (JObject [("floors", JArray [])])
  else NoFile.

(** ** Identifiers *)

(** How many of the [enterVehicle] calls of a sequence return. *)
Fixpoint enters_returned (calls : list LotCall) (lot : ParkingLot.t) : nat :=
  match calls with
  | [] => 0
  | c :: rest =>
      (match c with
       | Enter entryGate v now =>
           match enterVehicle lot entryGate v now with
           | Ret _ _ => 1
           | Throw _ _ => 0
           end
       | _ => 0
       end + enters_returned rest (lot_step lot c))%nat
  end.

(** Every active ticket is stored under its own id, below the counter. *)
Definition tickets_numbered (lot : ParkingLot.t) : Prop :=
  1 ≤ TicketingService.nextId (ParkingLot.ticketSvc_ lot) ∧
  ∀ k tk, ParkingLot.active_ lot !! k = Some tk →
    Ticket.id tk = k ∧
    1 ≤ k < TicketingService.nextId (ParkingLot.ticketSvc_ lot).

(** Every bill is stored under its own id, below the counter, which is at
    most [1 + n]. *)
Definition bills_numbered (n : Z) (svc : PaymentService.t) : Prop :=
  1 ≤ PaymentService.nextBill_ svc ≤ 1 + n ∧
  ∀ k b, PaymentService.bills_ svc !! k = Some b →
    Bill.id b = k ∧ 1 ≤ k < PaymentService.nextBill_ svc.

(** What a list of floors is apart from the occupancy flags: the floor
    numbers, and per floor the ids and categories of its slots, in order. *)
Definition layout (floors : list Floor.t) : list (Z * list (string * SlotType)) :=
  (λ fl, (Floor.floorNo fl,
          (λ s, (ParkingSlot.id s, ParkingSlot.type s)) <$> Floor.slots fl))
    <$> floors.

(** ** Reading a document *)

(** The slot that the loader reads from one element of a "slots" array. *)
Definition slot_reads (js : json) (s : ParkingSlot.t) : Prop :=
  (jid ← must js "id"; get_string jid) = inr (ParkingSlot.id s) ∧
  (jtype ← must js "type"; ty ← get_string jtype; slotTypeFromString ty)
  = inr (ParkingSlot.type s) ∧
  ParkingSlot.isFree s = true.

(** The floor that the loader reads from one element of "floors". *)
Definition floor_reads (jf : json) (fl : Floor.t) : Prop :=
  (jno ← must jf "floorNo"; get_int jno) = inr (Floor.floorNo fl) ∧
  ∃ jslots, must jf "slots" = inr (JArray jslots) ∧
            Forall2 slot_reads jslots (Floor.slots fl) ∧ jslots ≠ [].

(** * The first stage: [stage1.cc]

    A program of its own, with its own [Slot], [Floor] and [ParkingLot];
    its [SlotType] has the constructors of the one above, which stands for
    it here.  [occupancy] writes to [cout]: the embedding returns the text
    written. *)

Module Stage1.

Record Slot := mkSlot { slotid : Z; slotType : SlotType; isFalse : bool }.

Record Floor := mkFloor { floorid : Z; slots : list Slot }.

Record ParkingLot := mkLot { floors : list Floor }.

Definition configure (s : list Floor) (lot : ParkingLot) : ParkingLot :=
  mkLot s.

(** [endl] *)
Definition endl : string := String "010"%char EmptyString.

(** One round of the inner loop on the counters
    [(bike_slot, car_slot, heavt_slot)]. *)
Definition count_slot (acc : Z * Z * Z) (j : Slot) : Z * Z * Z :=
  let '(bike_slot, car_slot, heavt_slot) := acc in
  if decide (TwoWheeler = slotType j) then (bike_slot + 1, car_slot, heavt_slot)
  else if decide (FourWheeler = slotType j) then (bike_slot, car_slot + 1, heavt_slot)
  else (bike_slot, car_slot, heavt_slot + 1).

(** The text written after the slots of floor [s] were counted. *)
Definition print_floor (s : Floor) (acc : Z * Z * Z) : string :=
  let '(bike_slot, car_slot, heavt_slot) := acc in
  String.concat ""
    ["Floor:"; to_string (floorid s); endl;
     "Number Car slots Avaible:"; to_string car_slot; endl;
     "Number of Bike Slots Avaible: "; to_string bike_slot; endl;
     "Number of heavt "; to_string heavt_slot].

(** One round of the outer loop on the counters and the text so far. *)
Definition occupancy_floor (st : Z * Z * Z * string) (s : Floor)
    : Z * Z * Z * string :=
  let acc := foldl count_slot st.1 (slots s) in
  (acc, String.append st.2 (print_floor s acc)).

Definition occupancy (lot : ParkingLot) : string :=
  (foldl occupancy_floor (0, 0, 0, "") (floors lot)).2.

(** The number of slots of category [t] in a sequence of slots. *)
Definition count_of (t : SlotType) (l : list Slot) : Z :=
  Z.of_nat (length (filter (λ j, slotType j = t) l)).

Definition counts (l : list Slot) : Z * Z * Z :=
  (count_of TwoWheeler l, count_of FourWheeler l, count_of Heavy l).

(** The text for the floors [fls] when the slots [seen] came before them:
    each floor's figures count the slots seen so far and its own. *)
Fixpoint report (seen : list Slot) (fls : list Floor) : string :=
  match fls with
  | [] => ""
  | s :: rest =>
      String.append (print_floor s (counts (seen ++ slots s)))
        (report (seen ++ slots s) rest)
  end.

(** The floor that [main] configures. *)
Definition main_floor : Floor :=
  mkFloor 1 [mkSlot 0 TwoWheeler true; mkSlot 1 TwoWheeler true;
             mkSlot 2 FourWheeler true; mkSlot 3 FourWheeler true;
             mkSlot 4 Heavy true].

End Stage1.

(** Every active ticket carries the id and the category of a slot of the
    inventory. *)
Definition tickets_typed (lot : ParkingLot.t) : Prop :=
  ∀ k tk, ParkingLot.active_ lot !! k = Some tk →
    (Ticket.slotId tk, Ticket.stype tk)
    ∈ (λ s, (ParkingSlot.id s, ParkingSlot.type s))
        <$> all_slots (ParkingLot.floors_ lot).

(** The id [tid] was issued and its ticket is no longer active. *)
Definition retired (tid : Z) (lot : ParkingLot.t) : Prop :=
  tid < TicketingService.nextId (ParkingLot.ticketSvc_ lot) ∧
  ParkingLot.active_ lot !! tid = None.

(** A car entered [demo_floors] at a clock reading of late 2026. *)
Definition clock_2026 : Z := 1790000000000000000.

Definition parked_lot : ParkingLot.t :=
  state_after (enterVehicle (configure demo_floors new_lot) "E2" demo_car clock_2026).
(** * Properties *)

(** ** Fee policy *)

Lemma wrap64_small (z : Z) : 0 ≤ z ≤ ULLONG_MAX → wrap64 z = z.
Proof. unfold wrap64, ULLONG_MAX. intros H. apply Z.mod_small. lia. Qed.

Lemma wrap64_range (z : Z) : 0 ≤ wrap64 z ≤ ULLONG_MAX.
Proof.
  unfold wrap64, ULLONG_MAX.
  pose proof (Z.mod_pos_bound z (2 ^ 64) ltac:(lia)). lia.
Qed.

(** The three strategies differ in the rate only. *)
Lemma compute_unfold (s : SlotType) (minutes : Z) :
  @compute (FeeStrategyFactory_make s) minutes =
  if decide (minutes ≤ GRACE_MINUTES) then FeeBreakup.mk 0 0 minutes
  else FeeBreakup.mk (wrap64 (ceilHours minutes * rate s)) (ceilHours minutes) minutes.
Proof. destruct s; reflexivity. Qed.

Lemma ceilHours_bound (m : Z) :
  0 ≤ m ≤ ULLONG_MAX → 0 ≤ ceilHours m ≤ ULLONG_MAX / 60.
Proof.
  intros Hm. unfold ceilHours. case_decide.
  - unfold ULLONG_MAX. split; [lia|]. apply Z.div_pos; lia.
  - pose proof (wrap64_range (m + 59)) as Hw. split.
    + apply Z.div_pos; lia.
    + apply Z.div_le_mono; lia.
Qed.

Lemma ceilHours_exact (m : Z) :
  0 < m ≤ ULLONG_MAX - 59 → ceilHours m = (m + 59) / 60.
Proof.
  intros Hm. unfold ceilHours. case_decide; [lia|].
  rewrite wrap64_small; [done|lia].
Qed.

(** No strategy's product wraps, whatever the minute count. *)
Lemma fee_amount_bound (s : SlotType) (m : Z) :
  0 ≤ m ≤ ULLONG_MAX →
  0 ≤ ceilHours m * rate s ≤ ULLONG_MAX / 60 * 50.
Proof.
  intros Hm. pose proof (ceilHours_bound m Hm) as Hh.
  assert (10 ≤ rate s ≤ 50) by (destruct s; simpl; lia).
  split; [nia|]. apply Z.mul_le_mono_nonneg; lia.
Qed.

(** C4, as amended.  For every slot category and every parked-minute count
    [m] of at most 2^64 - 60 (every count [exitVehicle] passes is below
    2^63): within the grace period, [m <= 10], the amount and the billed
    hours are 0; beyond it the billed hours are the ceiling of [m / 60],
    that is the one [h] with [60 * (h - 1) < m <= 60 * h], and the amount
    is [h] times the category's rate, 10, 20 or 50. *)
Theorem compute_grace_and_ceiling (s : SlotType) (m : Z) :
  0 ≤ m ≤ ULLONG_MAX - 59 →
  let fb := @compute (FeeStrategyFactory_make s) m in
  let h := FeeBreakup.billedHours fb in
  FeeBreakup.parkedMinutes fb = m ∧
  rate TwoWheeler = 10 ∧ rate FourWheeler = 20 ∧ rate Heavy = 50 ∧
  if decide (m ≤ 10) then FeeBreakup.amount fb = 0 ∧ h = 0
  else 60 * (h - 1) < m ≤ 60 * h ∧ FeeBreakup.amount fb = h * rate s.
Proof.
  intros Hm fb h. subst fb h. rewrite compute_unfold. unfold GRACE_MINUTES.
  split; [by case_decide|]. do 3 (split; [reflexivity|]).
  destruct (decide (m ≤ 10)) as [Hg|Hg]; simpl; [done|].
  pose proof (fee_amount_bound s m) as Hb.
  rewrite ceilHours_exact in * by lia.
  pose proof (Z.div_mod (m + 59) 60 ltac:(lia)) as Hd.
  pose proof (Z.mod_pos_bound (m + 59) 60 ltac:(lia)) as Hr.
  split; [lia|].
  apply wrap64_small. unfold ULLONG_MAX in *.
  change (2 ^ 64 - 1) with 18446744073709551615 in *.
  change (18446744073709551615 / 60 * 50) with 15372286728091293000 in Hb.
  lia.
Qed.

Lemma compute_grace_and_ceiling_witness :
  60 * (FeeBreakup.billedHours (@compute (FeeStrategyFactory_make TwoWheeler) 95) - 1) < 95
    ≤ 60 * FeeBreakup.billedHours (@compute (FeeStrategyFactory_make TwoWheeler) 95)
  ∧ FeeBreakup.amount (@compute (FeeStrategyFactory_make TwoWheeler) 95) = 20.
Proof.
  pose proof (compute_grace_and_ceiling TwoWheeler 95 ltac:(vm_compute; split; discriminate))
    as (_ & _ & _ & _ & H).
  exact H.
Defined.

(** C4 as stated fails at the top of the [unsigned long long] range: for
    [m = 2^64 - 1] the sum [m + 59] wraps to 58, so the billed hours are 0
    although [m] is far beyond the grace period, and 0 hours do not cover
    [m] minutes. *)
Lemma compute_wraps_at_ULLONG_MAX :
  let fb := @compute (FeeStrategyFactory_make TwoWheeler) ULLONG_MAX in
  10 < ULLONG_MAX ∧
  FeeBreakup.billedHours fb = 0 ∧ FeeBreakup.amount fb = 0 ∧
  ¬ (ULLONG_MAX ≤ 60 * FeeBreakup.billedHours fb).
Proof.
  intros fb. do 3 (split; [reflexivity|]).
  intros H. vm_compute in H. apply H. reflexivity.
Qed.

(** ** Payment processors *)

Lemma string_find_from_Some (pos : nat) (c : ascii) (s : string) :
  is_Some (string_find_from pos c s) ↔ ∃ i, String.get i s = Some c.
Proof.
  revert pos. induction s as [|a rest IH]; intros pos; simpl.
  - split; [by intros [? ?] | by intros [[|?] ?]].
  - case_decide as Hac.
    + split; [|eauto]. intros _. exists 0%nat. simpl. by subst.
    + rewrite IH. split.
      * intros [i Hi]. by exists (S i).
      * intros [[|i] Hi]; simpl in Hi; [congruence | eauto].
Qed.

Lemma string_find_Some (c : ascii) (s : string) :
  is_Some (string_find c s) ↔ ∃ i, String.get i s = Some c.
Proof. apply string_find_from_Some. Qed.

(** C8.  Whatever the request: the cash processor accepts; the card
    processor accepts exactly when the card number has at least 8
    characters and otherwise leaves the reason "Card declined (invalid
    number)"; the UPI processor accepts exactly when the address holds an
    '@' at some position and otherwise leaves the reason "UPI failed
    (invalid VPA)". *)
Theorem charge_by_method (req : PaymentRequest.t) (reason : string) :
  let cash := charge (makeProcessor Cash) req reason in
  let card := charge (makeProcessor Card) req reason in
  let upi := charge (makeProcessor UPI) req reason in
  cash.1 = true ∧
  (card.1 = true ↔ (8 ≤ String.length (PaymentRequest.cardNumber req))%nat) ∧
  (card.1 = false ↔ card = (false, "Card declined (invalid number)")) ∧
  (upi.1 = true ↔ ∃ i, String.get i (PaymentRequest.upiVPA req) = Some "@"%char) ∧
  (upi.1 = false ↔ upi = (false, "UPI failed (invalid VPA)")).
Proof.
  simpl. split; [done|]. split; [|split; [|split]].
  - case_decide; simpl; split; intros; done || lia.
  - case_decide; simpl; split; intros; done.
  - rewrite <- string_find_Some.
    destruct (string_find _ _) eqn:E; simpl.
    + split; eauto.
    + split; [done|]. by intros [? ?].
  - destruct (string_find _ _); simpl; split; intros; done.
Qed.

(** ** Billing ledger *)

Lemma charge_set_amount (a : Z) (req : PaymentRequest.t) (reason : string) :
  charge (makeProcessor (PaymentRequest.method req))
    (PaymentRequest.set_amount a req) reason
  = charge (makeProcessor (PaymentRequest.method req)) req reason.
Proof. by destruct req as [? ? [] ? ?]. Qed.

Lemma get_store_status (id : Z) (st : BillStatus) (svc : PaymentService.t) :
  get (store_status id st svc) id = Bill.set_status st <$> get svc id.
Proof. unfold get, store_status. simpl. apply lookup_alter_eq. Qed.

Lemma get_store_status_ne (id id' : Z) (st : BillStatus) (svc : PaymentService.t) :
  id ≠ id' → get (store_status id st svc) id' = get svc id'.
Proof. intros. unfold get, store_status. simpl. by apply lookup_alter_ne. Qed.

(** [pay] on a bill that is [Pending]: the processor decides. *)
Lemma pay_pending (svc : PaymentService.t) (req : PaymentRequest.t) (now : Z)
    (b : Bill.t) :
  get svc (PaymentRequest.bill req) = Some b →
  Bill.status b = Pending →
  pay svc req now =
  let proc := makeProcessor (PaymentRequest.method req) in
  if (charge proc req "").1 then
    ([req], Ret (Receipt.mk (Bill.id b) (Bill.ticket b) (Bill.amount b)
                   (name proc) now)
             (store_status (PaymentRequest.bill req) Paid svc))
  else
    ([req], Throw (runtime_error
                     (String.append "Payment failed: " (charge proc req "").2))
             (store_status (PaymentRequest.bill req) Failed svc)).
Proof.
  unfold get, pay. intros -> Hst. rewrite Hst. simpl.
  by destruct (charge _ req "") as [[] ?].
Qed.

(** [pay] on a bill that is [Paid]: the replay receipt, no processor. *)
Lemma pay_paid (svc : PaymentService.t) (req : PaymentRequest.t) (now : Z)
    (b : Bill.t) :
  get svc (PaymentRequest.bill req) = Some b →
  Bill.status b = Paid →
  pay svc req now =
  ([], Ret (Receipt.mk (Bill.id b) (Bill.ticket b) (Bill.amount b)
              "ALREADY_PAID" now) svc).
Proof. unfold get, pay. intros -> Hst. by rewrite Hst. Qed.

(** C10.  On a bill that is [Pending], [pay] yields the same receipt or
    exception and the same ledger whatever amount the request carries; when
    the processor accepts, the call returns a receipt with the bill's
    stored amount and the bill becomes [Paid]; when it declines, the call
    throws and the bill becomes [Failed]. *)
Theorem pay_ignores_request_amount (svc : PaymentService.t)
    (req : PaymentRequest.t) (now : Z) (b : Bill.t) :
  get svc (PaymentRequest.bill req) = Some b →
  Bill.status b = Pending →
  (∀ a, (pay svc (PaymentRequest.set_amount a req) now).2 = (pay svc req now).2) ∧
  match (pay svc req now).2 with
  | Ret r svc' =>
      (charge (makeProcessor (PaymentRequest.method req)) req "").1 = true ∧
      Receipt.amount r = Bill.amount b ∧
      get svc' (PaymentRequest.bill req) = Some (Bill.set_status Paid b)
  | Throw _ svc' =>
      (charge (makeProcessor (PaymentRequest.method req)) req "").1 = false ∧
      get svc' (PaymentRequest.bill req) = Some (Bill.set_status Failed b)
  end.
Proof.
  intros Hb Hst. split.
  - intros a.
    rewrite (pay_pending svc (PaymentRequest.set_amount a req) now b),
      (pay_pending svc req now b) by done.
    simpl. rewrite charge_set_amount.
    by destruct (charge _ req "") as [[] ?].
  - rewrite (pay_pending svc req now b) by done. simpl.
    destruct (charge _ req "") as [[] ?]; simpl;
      rewrite get_store_status, Hb; done.
Qed.

Lemma pay_ignores_request_amount_witness :
  (∀ a, (pay demo_ledger (PaymentRequest.set_amount a cash_request) 1900).2
        = (pay demo_ledger cash_request 1900).2) ∧
  match (pay demo_ledger cash_request 1900).2 with
  | Ret r svc' =>
      (charge (makeProcessor Cash) cash_request "").1 = true ∧
      Receipt.amount r = 20 ∧
      get svc' 1 = Some (Bill.set_status Paid demo_bill)
  | Throw _ svc' =>
      (charge (makeProcessor Cash) cash_request "").1 = false ∧
      get svc' 1 = Some (Bill.set_status Failed demo_bill)
  end.
Proof.
  apply (pay_ignores_request_amount demo_ledger cash_request 1900 demo_bill);
    reflexivity.
Defined.

(** C5.  On a bill that is [Paid], every [pay] call returns, hands no
    request to a processor, leaves the ledger as it was and carries the
    bill's amount on a receipt marked "ALREADY_PAID".  Hence two [pay]
    calls on a bill that is [Pending] hand at most one request to a
    processor: the second call hands none, and after a first call that
    returned it is such a replay. *)
Theorem pay_replay_charges_once (svc : PaymentService.t)
    (req : PaymentRequest.t) (now : Z) (b : Bill.t) :
  get svc (PaymentRequest.bill req) = Some b →
  (Bill.status b = Paid →
     pay svc req now =
     ([], Ret (Receipt.mk (Bill.id b) (Bill.ticket b) (Bill.amount b)
                 "ALREADY_PAID" now) svc)) ∧
  (Bill.status b = Pending →
     ∀ req2 now2, PaymentRequest.bill req2 = PaymentRequest.bill req →
       let first := pay svc req now in
       let second := pay (state_after first.2) req2 now2 in
       (length (first.1 ++ second.1) ≤ 1)%nat ∧ second.1 = [] ∧
       (returns first.2 →
          second.2 = Ret (Receipt.mk (Bill.id b) (Bill.ticket b) (Bill.amount b)
                            "ALREADY_PAID" now2) (state_after first.2))).
Proof.
  intros Hb. split; [by apply pay_paid|].
  intros Hst req2 now2 Hid. simpl.
  rewrite (pay_pending svc req now b) by done. simpl.
  destruct (charge _ req "") as [[] reason]; simpl.
  - rewrite (pay_paid _ req2 now2 (Bill.set_status Paid b)).
    + simpl. split; [lia|]. split; [done|]. intros _. by destruct b.
    + by rewrite Hid, get_store_status, Hb.
    + done.
  - unfold pay at 1 2. fold (get (store_status (PaymentRequest.bill req) Failed svc)
                          (PaymentRequest.bill req2)).
    rewrite Hid, get_store_status, Hb. simpl. split; [lia|]. split; [done|]. done.
Qed.

Lemma pay_replay_charges_once_witness :
  let first := pay demo_ledger cash_request 1900 in
  let second := pay (state_after first.2) short_card_request 2000 in
  (length (first.1 ++ second.1) ≤ 1)%nat ∧ second.1 = [] ∧
  (returns first.2 →
     second.2 = Ret (Receipt.mk 1 1 20 "ALREADY_PAID" 2000) (state_after first.2)).
Proof.
  destruct (pay_replay_charges_once demo_ledger cash_request 1900 demo_bill eq_refl)
    as [_ H].
  exact (H eq_refl short_card_request 2000 eq_refl).
Defined.

Lemma forward_trans (s1 s2 s3 : BillStatus) :
  forward s1 s2 → forward s2 s3 → forward s1 s3.
Proof. unfold forward. destruct s1, s2, s3; intuition congruence. Qed.

Lemma forward_Paid (s : BillStatus) : forward Paid s → s = Paid.
Proof. unfold forward. intuition congruence. Qed.

Lemma set_status_set_status (s1 s2 : BillStatus) (b : Bill.t) :
  Bill.set_status s2 (Bill.set_status s1 b) = Bill.set_status s2 b.
Proof. by destruct b. Qed.

Lemma set_status_same (b : Bill.t) : Bill.set_status (Bill.status b) b = b.
Proof. by destruct b. Qed.

Lemma emplace_lookup_Some {V} (k k' : Z) (v v' : V) (m : gmap Z V) :
  m !! k' = Some v' → emplace k v m !! k' = Some v'.
Proof.
  intros Hk'. unfold emplace. destruct (m !! k) eqn:Hk; [done|].
  rewrite lookup_insert_ne; [done|congruence].
Qed.

(** One call moves the status of a stored bill forward and changes
    nothing else about it. *)
Lemma ledger_step_forward (svc : PaymentService.t) (c : LedgerCall) (id : Z)
    (b : Bill.t) :
  get svc id = Some b →
  ∃ st', get (ledger_step svc c) id = Some (Bill.set_status st' b)
         ∧ forward (Bill.status b) st'.
Proof.
  intros Hb.
  assert (Hsame : ∃ st', get svc id = Some (Bill.set_status st' b)
                         ∧ forward (Bill.status b) st').
  { exists (Bill.status b). rewrite set_status_same. split; [done|by left]. }
  destruct c as [tk gate fb now|req now|id']; simpl.
  - exists (Bill.status b). rewrite set_status_same. split; [|by left].
    unfold get. simpl. by apply emplace_lookup_Some.
  - unfold pay. fold (get svc (PaymentRequest.bill req)).
    destruct (get svc (PaymentRequest.bill req)) as [b0|] eqn:Hb0; [|done].
    repeat case_decide; try done.
    assert (Hp : Bill.status b0 = Pending) by (by destruct (Bill.status b0)).
    destruct (decide (PaymentRequest.bill req = id)) as [<-|Hne].
    + assert (b0 = b) as -> by congruence.
      destruct (charge _ req "") as [[] ?]; simpl;
        rewrite get_store_status, Hb; simpl; eexists; (split; [done|]);
        right; by left.
    + destruct (charge _ req "") as [[] ?]; simpl;
        by rewrite get_store_status_ne.
  - unfold cancel. fold (get svc id').
    destruct (get svc id') as [b0|] eqn:Hb0; [|done].
    case_decide as Hpaid; [done|]. simpl.
    destruct (decide (id' = id)) as [->|Hne].
    + assert (b0 = b) as -> by congruence.
      rewrite get_store_status, Hb. simpl. eexists. split; [done|].
      unfold forward. destruct (Bill.status b); intuition congruence.
    + by rewrite get_store_status_ne.
Qed.

Lemma ledger_run_forward (calls : list LedgerCall) (svc : PaymentService.t)
    (id : Z) (b : Bill.t) :
  get svc id = Some b →
  ∃ st', get (ledger_run calls svc) id = Some (Bill.set_status st' b)
         ∧ forward (Bill.status b) st'.
Proof.
  revert svc b. induction calls as [|c calls IH]; intros svc b Hb.
  - exists (Bill.status b). rewrite set_status_same. split; [done|by left].
  - destruct (ledger_step_forward svc c id b Hb) as (st1 & H1 & Hf1).
    destruct (IH _ _ H1) as (st2 & H2 & Hf2).
    exists st2. split.
    + unfold ledger_run in *. simpl. rewrite H2. by rewrite set_status_set_status.
    + eapply forward_trans; [done|]. by destruct b.
Qed.

(** C2, as amended.  Across every sequence of [createBill], [pay] and
    [cancel] calls a stored bill keeps all its fields but the status, and
    the status moves only forward: it stays, or leaves [Pending] for
    [Paid], [Failed] or [Cancelled], or goes from [Failed] to [Cancelled];
    a [Paid] bill stays [Paid].  [cancel] throws on a [Paid] bill and on
    every other bill, [Pending], [Failed] or [Cancelled], returns and
    leaves it [Cancelled]. *)
Theorem bill_status_moves_forward (calls : list LedgerCall)
    (svc : PaymentService.t) (id : Z) (b : Bill.t) :
  get svc id = Some b →
  (∃ st', get (ledger_run calls svc) id = Some (Bill.set_status st' b)
          ∧ forward (Bill.status b) st'
          ∧ (st' = Bill.status b ∨ (Bill.status b = Pending ∧ st' ≠ Pending)
             ∨ (Bill.status b = Failed ∧ st' = Cancelled))
          ∧ (Bill.status b = Paid → st' = Paid)) ∧
  cancel svc id =
    (if decide (Bill.status b = Paid)
     then Throw (runtime_error "Cannot cancel a paid bill") svc
     else Ret tt (store_status id Cancelled svc)) ∧
  get (store_status id Cancelled svc) id = Some (Bill.set_status Cancelled b).
Proof.
  intros Hb. split; [|split].
  - destruct (ledger_run_forward calls svc id b Hb) as (st' & Hget & Hf).
    exists st'. split; [done|]. split; [done|]. split.
    + unfold forward in Hf. destruct (Bill.status b), st'; intuition congruence.
    + intros Hp. rewrite Hp in Hf. by apply forward_Paid.
  - unfold cancel. fold (get svc id). rewrite Hb. by case_decide.
  - by rewrite get_store_status, Hb.
Qed.

Lemma bill_status_moves_forward_witness :
  (∃ st', get (ledger_run [Pay short_card_request 1900; Cancel 1; Pay cash_request 2000]
                 demo_ledger) 1
          = Some (Bill.set_status st' demo_bill)
          ∧ forward Pending st'
          ∧ (st' = Pending ∨ (Pending = Pending ∧ st' ≠ Pending)
             ∨ (Pending = Failed ∧ st' = Cancelled))
          ∧ (Pending = Paid → st' = Paid)) ∧
  cancel demo_ledger 1 = Ret tt (store_status 1 Cancelled demo_ledger) ∧
  get (store_status 1 Cancelled demo_ledger) 1
  = Some (Bill.set_status Cancelled demo_bill).
Proof.
  exact (bill_status_moves_forward
           [Pay short_card_request 1900; Cancel 1; Pay cash_request 2000]
           demo_ledger 1 demo_bill eq_refl).
Defined.

(** C2 as stated fails: bill 1 of [declined_ledger] is [Failed], yet a
    later [cancel] returns and moves it to [Cancelled]. *)
Lemma cancel_moves_failed_bill :
  Bill.status <$> get declined_ledger 1 = Some Failed ∧
  returns (cancel declined_ledger 1) ∧
  Bill.status <$> get (state_after (cancel declined_ledger 1)) 1 = Some Cancelled.
Proof. vm_compute. done. Qed.

(** ** Slot inventory *)

Lemma wanted_test (t : SlotType) (s : ParkingSlot.t) :
  bool_decide (ParkingSlot.type s = t) && ParkingSlot.isFree s = true ↔ wanted t s.
Proof.
  unfold wanted. rewrite andb_true_iff, bool_decide_eq_true. done.
Qed.

(** [findFreeIndex] finds the first wanted slot of the floor, or none. *)
Lemma findFreeIndex_from_spec (i : Z) (slots : list ParkingSlot.t) (t : SlotType) :
  0 ≤ i →
  (findFreeIndex_from i slots t = -1 ∧ ∀ s, s ∈ slots → ¬ wanted t s) ∨
  (∃ (n : nat) s,
     findFreeIndex_from i slots t = i + Z.of_nat n ∧
     slots !! n = Some s ∧ wanted t s ∧
     ∀ (n' : nat) s', (n' < n)%nat → slots !! n' = Some s' → ¬ wanted t s').
Proof.
  revert i. induction slots as [|s0 rest IH]; intros i Hi; simpl.
  - left. split; [done|]. intros s Hs. by apply elem_of_nil in Hs.
  - destruct (bool_decide (ParkingSlot.type s0 = t) && ParkingSlot.isFree s0) eqn:E.
    + right. exists 0%nat, s0. rewrite wanted_test in E.
      split; [lia|]. split; [done|]. split; [done|]. intros; lia.
    + assert (¬ wanted t s0) as Hn0 by (rewrite <- wanted_test; congruence).
      destruct (IH (i + 1) ltac:(lia)) as [[Hr Hall]|(n & s & Hr & Hl & Hw & Hmin)].
      * left. split; [done|]. intros s [->|Hs]%elem_of_cons; auto.
      * right. exists (S n), s. split; [lia|]. split; [done|]. split; [done|].
        intros [|n'] s' Hlt Hl'; simpl in Hl'; [congruence|].
        apply (Hmin n' s'); [lia|done].
Qed.

Lemma findFreeIndex_spec (fl : Floor.t) (t : SlotType) :
  (findFreeIndex fl t = -1 ∧ ∀ s, s ∈ Floor.slots fl → ¬ wanted t s) ∨
  (∃ (n : nat) s,
     findFreeIndex fl t = Z.of_nat n ∧
     Floor.slots fl !! n = Some s ∧ wanted t s ∧
     ∀ (n' : nat) s', (n' < n)%nat → Floor.slots fl !! n' = Some s' → ¬ wanted t s').
Proof. apply (findFreeIndex_from_spec 0). lia. Qed.

(** The floor loop of [enterVehicle] stops at the first floor holding a
    wanted slot, at that floor's first wanted slot. *)
Lemma enter_scan_spec (f0 : Z) (floors : list Floor.t) (t : SlotType) :
  0 ≤ f0 →
  (enter_scan f0 floors t = (-1, -1) ∧
   ∀ fl s, fl ∈ floors → s ∈ Floor.slots fl → ¬ wanted t s) ∨
  (∃ (f i : nat) fl s,
     enter_scan f0 floors t = (f0 + Z.of_nat f, Z.of_nat i) ∧
     floors !! f = Some fl ∧ Floor.slots fl !! i = Some s ∧ wanted t s ∧
     (∀ (f' : nat) fl' s', (f' < f)%nat → floors !! f' = Some fl' →
        s' ∈ Floor.slots fl' → ¬ wanted t s') ∧
     (∀ (i' : nat) s', (i' < i)%nat → Floor.slots fl !! i' = Some s' →
        ¬ wanted t s')).
Proof.
  revert f0. induction floors as [|fl0 rest IH]; intros f0 Hf0; simpl.
  - left. split; [done|]. intros fl s Hfl. by apply elem_of_nil in Hfl.
  - destruct (findFreeIndex_spec fl0 t) as [[Hr Hall]|(n & s & Hr & Hl & Hw & Hmin)].
    + rewrite Hr. case_decide; [done|].
      destruct (IH (f0 + 1) ltac:(lia))
        as [[Hr' Hall']|(f & i & fl & s & Hr' & Hfl & Hs & Hw & Hminf & Hmini)].
      * left. split; [done|]. intros fl s [->|Hfl]%elem_of_cons; eauto.
      * right. exists (S f), i, fl, s. rewrite Hr'.
        split; [f_equal; lia|]. split; [done|]. split; [done|]. split; [done|].
        split; [|done].
        intros [|f'] fl' s' Hlt Hfl'; simpl in Hfl'.
        -- injection Hfl' as <-. apply Hall.
        -- apply (Hminf f' fl' s'); [lia|done].
    + rewrite Hr. case_decide; [|lia].
      right. exists 0%nat, n, fl0, s.
      split; [f_equal; lia|]. split; [done|]. split; [done|]. split; [done|].
      split; [intros; lia|done].
Qed.

Lemma elem_of_all_slots (floors : list Floor.t) (s : ParkingSlot.t) :
  s ∈ all_slots floors ↔ ∃ fl, fl ∈ floors ∧ s ∈ Floor.slots fl.
Proof.
  unfold all_slots. induction floors as [|fl0 rest IH]; simpl.
  - split; [by intros ?%elem_of_nil | by intros (? & ?%elem_of_nil & _)].
  - rewrite elem_of_app, IH. split.
    + intros [Hs|(fl & Hfl & Hs)]; [exists fl0 | exists fl];
        (split; [|done]); [by left | by right].
    + intros (fl & [->|Hfl]%elem_of_cons & Hs); [by left | right; eauto].
Qed.

Lemma slot_lookup_elem_of (floors : list Floor.t) (f i : nat) (s : ParkingSlot.t) :
  slot_lookup floors f i = Some s → s ∈ all_slots floors.
Proof.
  unfold slot_lookup. intros H. apply elem_of_all_slots.
  destruct (floors !! f) as [fl|] eqn:Hfl; simpl in H; [|done].
  exists fl. eauto using list_elem_of_lookup_2.
Qed.

Lemma alter_split {A} (g : A → A) (l : list A) (i : nat) (x : A) :
  l !! i = Some x →
  ∃ l1 l2, l = l1 ++ x :: l2 ∧ alter g i l = l1 ++ g x :: l2.
Proof.
  revert i. induction l as [|y l IH]; intros [|i] Hi; simpl in *; try done.
  - injection Hi as ->. by exists [], l.
  - destruct (IH i Hi) as (l1 & l2 & -> & Hr).
    exists (y :: l1), l2. split; [done|]. simpl. by rewrite <- Hr.
Qed.

(** Storing a slot's flag changes that one element of the slot sequence. *)
Lemma store_isFree_split (b : bool) (f i : nat) (floors : list Floor.t)
    (s : ParkingSlot.t) :
  slot_lookup floors f i = Some s →
  ∃ l1 l2, all_slots floors = l1 ++ s :: l2 ∧
           all_slots (store_isFree b f i floors) = l1 ++ with_isFree b s :: l2.
Proof.
  unfold slot_lookup, store_isFree, all_slots. intros H.
  destruct (floors !! f) as [fl|] eqn:Hfl; simpl in H; [|done].
  destruct (alter_split
              (λ fl, Floor.mk (Floor.floorNo fl)
                       (alter (with_isFree b) i (Floor.slots fl)))
              floors f fl Hfl) as (k1 & k2 & -> & ->).
  destruct (alter_split (with_isFree b) (Floor.slots fl) i s H)
    as (l1 & l2 & Hs & Hs').
  exists (concat (Floor.slots <$> k1) ++ l1), (l2 ++ concat (Floor.slots <$> k2)).
  rewrite !fmap_app, !fmap_cons, !concat_app, !concat_cons.
  cbn [Floor.slots]. rewrite Hs', Hs.
  by rewrite <- !app_assoc.
Qed.

Lemma slot_lookup_store_eq (b : bool) (f i : nat) (floors : list Floor.t) :
  slot_lookup (store_isFree b f i floors) f i
  = with_isFree b <$> slot_lookup floors f i.
Proof.
  unfold slot_lookup, store_isFree. rewrite list_lookup_alter_eq.
  destruct (floors !! f) as [fl|]; simpl; [|done].
  apply list_lookup_alter_eq.
Qed.

Lemma slot_lookup_store_ne (b : bool) (f i f' i' : nat) (floors : list Floor.t) :
  (f', i') ≠ (f, i) →
  slot_lookup (store_isFree b f i floors) f' i' = slot_lookup floors f' i'.
Proof.
  intros Hne. unfold slot_lookup, store_isFree.
  destruct (decide (f = f')) as [<-|Hf].
  - rewrite list_lookup_alter_eq.
    destruct (floors !! f) as [fl|]; simpl; [|done].
    apply list_lookup_alter_ne. congruence.
  - by rewrite list_lookup_alter_ne.
Qed.

(** [findSlotById_nolock] finds a slot with the given id, or there is none. *)
Lemma find_slot_from_spec (i0 : nat) (slots : list ParkingSlot.t) (sid : string) :
  (find_slot_from i0 slots sid = None ∧
   ∀ s, s ∈ slots → ParkingSlot.id s ≠ sid) ∨
  (∃ (n : nat) s, find_slot_from i0 slots sid = Some (i0 + n)%nat ∧
                  slots !! n = Some s ∧ ParkingSlot.id s = sid).
Proof.
  revert i0. induction slots as [|s0 rest IH]; intros i0; simpl.
  - left. split; [done|]. by intros s ?%elem_of_nil.
  - case_decide as Hid.
    + right. exists 0%nat, s0. split; [f_equal; lia|done].
    + destruct (IH (S i0)) as [[Hr Hall]|(n & s & Hr & Hl & Hs)].
      * left. split; [done|]. intros s [->|Hs]%elem_of_cons; auto.
      * right. exists (S n), s. rewrite Hr. split; [f_equal; lia|done].
Qed.

Lemma findSlotById_from_spec (f0 : nat) (floors : list Floor.t) (sid : string) :
  (findSlotById_from f0 floors sid = None ∧
   ∀ s, s ∈ all_slots floors → ParkingSlot.id s ≠ sid) ∨
  (∃ (f i : nat) s, findSlotById_from f0 floors sid = Some ((f0 + f)%nat, i) ∧
                    slot_lookup floors f i = Some s ∧ ParkingSlot.id s = sid).
Proof.
  revert f0. induction floors as [|fl0 rest IH]; intros f0; simpl.
  - left. split; [done|]. by intros s ?%elem_of_nil.
  - destruct (find_slot_from_spec 0 (Floor.slots fl0) sid)
      as [[Hr Hall]|(n & s & Hr & Hl & Hs)]; rewrite Hr.
    + destruct (IH (S f0)) as [[Hr' Hall']|(f & i & s & Hr' & Hl & Hs)].
      * left. split; [done|]. unfold all_slots. simpl.
        intros s [?|?]%elem_of_app; auto.
      * right. exists (S f), i, s. rewrite Hr'. split; [do 2 f_equal; lia|done].
    + right. exists 0%nat, n, s. split; [do 2 f_equal; lia|done].
Qed.

Lemma findSlotById_nolock_spec (lot : ParkingLot.t) (sid : string) :
  (findSlotById_nolock lot sid = None ∧
   ∀ s, s ∈ all_slots (ParkingLot.floors_ lot) → ParkingSlot.id s ≠ sid) ∨
  (∃ (f i : nat) s, findSlotById_nolock lot sid = Some (f, i) ∧
                    slot_lookup (ParkingLot.floors_ lot) f i = Some s ∧
                    ParkingSlot.id s = sid).
Proof. apply (findSlotById_from_spec 0). Qed.

(** ** Entry *)

Lemma slot_at_lookup (floors : list Floor.t) (f i : nat) (s : ParkingSlot.t) :
  slot_lookup floors f i = Some s →
  slot_at floors (Z.of_nat f) (Z.of_nat i) = s.
Proof.
  unfold slot_lookup, slot_at. rewrite !Nat2Z.id. intros H.
  destruct (floors !! f) as [fl|] eqn:Hfl; simpl in H; [|done].
  rewrite (list_lookup_total_correct _ _ _ Hfl).
  by apply list_lookup_total_correct.
Qed.

(** What [enterVehicle] does, in full: either no slot is wanted and it
    throws, leaving the lot as it was, or it takes the first wanted slot. *)
Lemma enterVehicle_spec (lot : ParkingLot.t) (entryGate : string)
    (v : Vehicle.t) (now : Z) :
  let need := slotFor (Vehicle.type v) in
  let floors := ParkingLot.floors_ lot in
  let tid := TicketingService.nextId (ParkingLot.ticketSvc_ lot) in
  (enterVehicle lot entryGate v now
   = Throw (runtime_error "No free slot available") lot ∧
   ∀ s, s ∈ all_slots floors → ¬ wanted need s)
  ∨
  (∃ (f i : nat) s,
     slot_lookup floors f i = Some s ∧ wanted need s ∧
     (∀ (f' i' : nat) s', slot_lookup floors f' i' = Some s' → wanted need s' →
        (f < f' ∨ (f = f' ∧ i ≤ i'))%nat) ∧
     enterVehicle lot entryGate v now
     = Ret tid
         (ParkingLot.mk (store_isFree false f i floors)
            (emplace tid
               (Ticket.mk tid entryGate now (ParkingSlot.id s) (Vehicle.type v)
                  (ParkingSlot.type s) (Vehicle.regNo v))
               (ParkingLot.active_ lot))
            (TicketingService.mk (wrap64 (tid + 1)))
            (ParkingLot.paymentSvc_ lot))).
Proof.
  intros need floors tid. unfold enterVehicle. fold need floors.
  destruct (enter_scan_spec 0 floors need ltac:(lia))
    as [[Hr Hall]|(f & i & fl & s & Hr & Hfl & Hs & Hw & Hminf & Hmini)];
    rewrite ?Z.add_0_l in Hr; rewrite Hr.
  - left. split; [done|]. intros s (fl & Hfl & Hs)%elem_of_all_slots. eauto.
  - right. exists f, i, s.
    assert (Hl : slot_lookup floors f i = Some s)
      by (unfold slot_lookup; by rewrite Hfl).
    split; [done|]. split; [done|]. split.
    + intros f' i' s' Hl' Hw'. unfold slot_lookup in Hl'.
      destruct (floors !! f') as [fl'|] eqn:Hfl'; simpl in Hl'; [|done].
      destruct (decide (f' < f)%nat) as [Hlt|Hge].
      { destruct (Hminf f' fl' s' Hlt Hfl'); eauto using list_elem_of_lookup_2. }
      destruct (decide (f' = f)) as [->|Hne]; [|lia].
      assert (fl' = fl) as -> by congruence.
      destruct (decide (i' < i)%nat) as [Hlt|Hge']; [|lia].
      by destruct (Hmini i' s' Hlt Hl').
    + case_decide; [lia|]. unfold openTicket. fold tid.
      rewrite !Nat2Z.id.
      rewrite (slot_at_lookup (store_isFree false f i floors) f i (with_isFree false s)).
      * done.
      * by rewrite slot_lookup_store_eq, Hl.
Qed.

(** C7.  For every lot and vehicle, [enterVehicle] either throws "No free
    slot available", changing nothing and issuing no ticket, and then no
    slot of the required category is free on any floor; or it returns, and
    then the slot it reserved was free and of the required category, every
    other such slot lies on a later floor or later on the same floor, the
    reserved slot is now occupied and every other slot is as it was. *)
Theorem enterVehicle_first_fit (lot : ParkingLot.t) (entryGate : string)
    (v : Vehicle.t) (now : Z) :
  let need := slotFor (Vehicle.type v) in
  let floors := ParkingLot.floors_ lot in
  let result := enterVehicle lot entryGate v now in
  (result = Throw (runtime_error "No free slot available") lot ∧
   ∀ (f i : nat) s, slot_lookup floors f i = Some s → ¬ wanted need s)
  ∨
  (∃ (f i : nat) s tid lot',
     result = Ret tid lot' ∧
     slot_lookup floors f i = Some s ∧ wanted need s ∧
     (∀ (f' i' : nat) s', slot_lookup floors f' i' = Some s' → wanted need s' →
        (f < f' ∨ (f = f' ∧ i ≤ i'))%nat) ∧
     slot_lookup (ParkingLot.floors_ lot') f i = Some (with_isFree false s) ∧
     (∀ f' i' : nat, (f', i') ≠ (f, i) →
        slot_lookup (ParkingLot.floors_ lot') f' i' = slot_lookup floors f' i') ∧
     ParkingLot.active_ lot'
     = emplace tid
         (Ticket.mk tid entryGate now (ParkingSlot.id s) (Vehicle.type v)
            need (Vehicle.regNo v))
         (ParkingLot.active_ lot)).
Proof.
  intros need floors result.
  destruct (enterVehicle_spec lot entryGate v now)
    as [[Hr Hall]|(f & i & s & Hl & Hw & Hmin & Hr)].
  - left. split; [done|]. intros f i s Hl. eauto using slot_lookup_elem_of.
  - right. do 5 eexists. split; [exact Hr|]. simpl.
    split; [done|]. split; [done|]. split; [done|].
    split; [by rewrite slot_lookup_store_eq, Hl|].
    split; [intros; by apply slot_lookup_store_ne|].
    by destruct Hw as [-> _].
Qed.

(** ** Occupancy *)

Lemma used_count_app (l1 l2 : list ParkingSlot.t) :
  used_count (l1 ++ l2) = (used_count l1 + used_count l2)%nat.
Proof. unfold used_count. by rewrite filter_app, length_app. Qed.

Lemma used_count_cons (s : ParkingSlot.t) (l : list ParkingSlot.t) :
  used_count (s :: l)
  = ((if ParkingSlot.isFree s then 0 else 1) + used_count l)%nat.
Proof.
  unfold used_count. rewrite filter_cons.
  destruct (ParkingSlot.isFree s); by case_decide.
Qed.

Lemma free_count_cons (s : ParkingSlot.t) (l : list ParkingSlot.t) :
  free_count (s :: l)
  = ((if ParkingSlot.isFree s then 1 else 0) + free_count l)%nat.
Proof.
  unfold free_count. rewrite filter_cons.
  destruct (ParkingSlot.isFree s); by case_decide.
Qed.

Lemma used_count_middle (l1 l2 : list ParkingSlot.t) (s : ParkingSlot.t) :
  used_count (l1 ++ s :: l2)
  = (used_count l1 + (if ParkingSlot.isFree s then 0 else 1) + used_count l2)%nat.
Proof. rewrite used_count_app, used_count_cons. lia. Qed.

Lemma used_count_all_free (l : list ParkingSlot.t) :
  Forall (λ s, ParkingSlot.isFree s = true) l → used_count l = 0%nat.
Proof.
  induction 1 as [|s l Hs _ IH]; [done|].
  by rewrite used_count_cons, Hs, IH.
Qed.

Lemma free_used_length (l : list ParkingSlot.t) :
  (free_count l + used_count l = length l)%nat.
Proof.
  induction l as [|s l IH]; [done|].
  rewrite free_count_cons, used_count_cons. simpl.
  destruct (ParkingSlot.isFree s); lia.
Qed.

(** The inner loop of [occupancy] adds the slots it visits to the
    counters. *)
Lemma occupancy_slots (l : list ParkingSlot.t) (freeCnt usedCnt total : Z) :
  foldl occupancy_slot (freeCnt, usedCnt, total) l
  = (freeCnt + Z.of_nat (free_count l), usedCnt + Z.of_nat (used_count l),
     total + Z.of_nat (length l)).
Proof.
  revert freeCnt usedCnt total. induction l as [|s l IH]; intros; cbn [foldl].
  - simpl. by rewrite !Z.add_0_r.
  - rewrite free_count_cons, used_count_cons, length_cons.
    replace (occupancy_slot (freeCnt, usedCnt, total) s)
      with (if ParkingSlot.isFree s then (freeCnt + 1, usedCnt, total + 1)
            else (freeCnt, usedCnt + 1, total + 1)) by done.
    destruct (ParkingSlot.isFree s); rewrite IH; (f_equal; [f_equal|]); lia.
Qed.

Lemma occupancy_floors (floors : list Floor.t) (acc : Z * Z * Z) :
  foldl (λ acc fl, foldl occupancy_slot acc (Floor.slots fl)) acc floors
  = foldl occupancy_slot acc (all_slots floors).
Proof.
  revert acc. unfold all_slots.
  induction floors as [|fl rest IH]; intros acc; simpl; [done|].
  by rewrite IH, foldl_app.
Qed.

Lemma occupancy_counts (lot : ParkingLot.t) :
  occupancy lot
  = (Z.of_nat (free_count (all_slots (ParkingLot.floors_ lot))),
     Z.of_nat (used_count (all_slots (ParkingLot.floors_ lot))),
     Z.of_nat (length (all_slots (ParkingLot.floors_ lot)))).
Proof. unfold occupancy. by rewrite occupancy_floors, occupancy_slots. Qed.

(** ** The lot invariant *)

Lemma NoDup_slot_ids (l : list ParkingSlot.t) (s s' : ParkingSlot.t) :
  NoDup (ParkingSlot.id <$> l) → s ∈ l → s' ∈ l →
  ParkingSlot.id s = ParkingSlot.id s' → s = s'.
Proof.
  intros Hnd [i Hi]%list_elem_of_lookup [j Hj]%list_elem_of_lookup Hid.
  assert (i = j) as ->; [|congruence].
  apply (NoDup_lookup _ i j (ParkingSlot.id s) Hnd);
    rewrite list_lookup_fmap; [by rewrite Hi | by rewrite Hj, Hid].
Qed.

Lemma emplace_fresh {V} (k : Z) (v : V) (m : gmap Z V) :
  m !! k = None → emplace k v m = <[k := v]> m.
Proof. unfold emplace. by intros ->. Qed.

Lemma lot_inv_mono (n n' : Z) (lot : ParkingLot.t) :
  n ≤ n' → lot_inv n lot → lot_inv n' lot.
Proof. intros Hn []. split; try done. lia. Qed.

Lemma lot_inv_configure (fs : list Floor.t) (lot0 : ParkingLot.t) :
  NoDup (ParkingSlot.id <$> all_slots fs) →
  Forall (λ s, ParkingSlot.isFree s = true) (all_slots fs) →
  lot_inv 0 (configure fs lot0).
Proof.
  intros Hnd Hfree. split; simpl; try done.
  by rewrite used_count_all_free.
Qed.

Lemma with_isFree_id (b : bool) (l1 l2 : list ParkingSlot.t) (s : ParkingSlot.t) :
  ParkingSlot.id <$> (l1 ++ with_isFree b s :: l2)
  = ParkingSlot.id <$> (l1 ++ s :: l2).
Proof. by rewrite !fmap_app, !fmap_cons. Qed.

(** A slot other than the one stored to is still in the sequence. *)
Lemma elem_of_middle_other (l1 l2 : list ParkingSlot.t) (s s' s0 : ParkingSlot.t) :
  s0 ∈ l1 ++ s :: l2 → s0 ≠ s → s0 ∈ l1 ++ s' :: l2.
Proof.
  rewrite !elem_of_app, !elem_of_cons. intuition.
Qed.

Lemma lot_inv_enter (n : Z) (lot : ParkingLot.t) (entryGate : string)
    (v : Vehicle.t) (now : Z) :
  n + 1 < ULLONG_MAX → lot_inv n lot →
  lot_inv (n + 1) (state_after (enterVehicle lot entryGate v now)).
Proof.
  intros Hn Hinv.
  destruct (enterVehicle_spec lot entryGate v now)
    as [[-> _]|(f & i & s & Hl & [Hty Hfree] & _ & ->)]; simpl.
  { eapply lot_inv_mono; [|done]. lia. }
  destruct Hinv as [Hids Hnext Hkeys Hslot Hinj Hcount].
  set (tid := TicketingService.nextId (ParkingLot.ticketSvc_ lot)) in *.
  destruct (store_isFree_split false f i _ s Hl) as (l1 & l2 & Hall & Hall').
  assert (Hfresh : ParkingLot.active_ lot !! tid = None).
  { destruct (ParkingLot.active_ lot !! tid) as [tk|] eqn:E; [|done].
    apply Hkeys in E. lia. }
  rewrite emplace_fresh by done.
  assert (Hold : ∀ k tk, ParkingLot.active_ lot !! k = Some tk →
                         Ticket.slotId tk ≠ ParkingSlot.id s).
  { intros k tk Hk Hid. destruct (Hslot k tk Hk) as (s0 & Hs0 & Hid0 & Hocc).
    assert (s0 = s) as ->; [|congruence].
    apply (NoDup_slot_ids _ _ _ Hids Hs0); [|congruence].
    rewrite Hall. apply elem_of_app. right. by left. }
  split; simpl.
  - by rewrite Hall', with_isFree_id, <- Hall.
  - rewrite wrap64_small; lia.
  - rewrite wrap64_small by lia.
    intros k tk [[<- _]|[_ Hk]]%lookup_insert_Some; [lia|].
    apply Hkeys in Hk. lia.
  - intros k tk [[<- <-]|[_ Hk]]%lookup_insert_Some.
    + exists (with_isFree false s). rewrite Hall'. split; [|done].
      apply elem_of_app. right. by left.
    + destruct (Hslot k tk Hk) as (s0 & Hs0 & Hid0 & Hocc).
      exists s0. split; [|done]. rewrite Hall'. rewrite Hall in Hs0.
      eapply elem_of_middle_other; [done|]. congruence.
  - intros k1 k2 tk1 tk2 [[<- <-]|[_ Hk1]]%lookup_insert_Some
      [[<- <-]|[_ Hk2]]%lookup_insert_Some Hid; simpl in Hid; try done.
    + by destruct (Hold _ _ Hk2).
    + by destruct (Hold _ _ Hk1).
    + eauto.
  - rewrite Hall', used_count_middle. rewrite Hall, used_count_middle in Hcount.
    rewrite map_size_insert_None by done. simpl. rewrite Hfree in Hcount. lia.
Qed.

Lemma lot_inv_exit (n : Z) (lot : ParkingLot.t) (tid : Z) (exitGate : string)
    (lostTicket : bool) (now out : Z) :
  lot_inv n lot →
  lot_inv n (state_after (exitVehicle lot tid exitGate lostTicket now out)).
Proof.
  intros Hinv. unfold exitVehicle.
  destruct (ParkingLot.active_ lot !! tid) as [tk|] eqn:Htk; [|done].
  destruct Hinv as [Hids Hnext Hkeys Hslot Hinj Hcount].
  destruct (Hslot tid tk Htk) as (s0 & Hs0 & Hid0 & Hocc0).
  destruct (findSlotById_nolock_spec lot (Ticket.slotId tk))
    as [[_ Hnone]|(f & i & s & -> & Hl & Hid)].
  { by destruct (Hnone s0 Hs0). }
  assert (s0 = s) as ->.
  { apply (NoDup_slot_ids _ _ _ Hids Hs0); [|congruence].
    by eapply slot_lookup_elem_of. }
  destruct (store_isFree_split true f i _ s Hl) as (l1 & l2 & Hall & Hall').
  unfold createBill. simpl.
  split; simpl.
  - by rewrite Hall', with_isFree_id, <- Hall.
  - done.
  - intros k tk' [_ Hk]%lookup_delete_Some. eauto.
  - intros k tk' [Hne Hk]%lookup_delete_Some.
    destruct (Hslot k tk' Hk) as (s1 & Hs1 & Hid1 & Hocc1).
    exists s1. split; [|done]. rewrite Hall'. rewrite Hall in Hs1.
    eapply elem_of_middle_other; [done|]. intros ->.
    apply Hne. apply (Hinj tid k tk tk' Htk Hk). congruence.
  - intros k1 k2 tk1 tk2 [_ Hk1]%lookup_delete_Some [_ Hk2]%lookup_delete_Some.
    eauto.
  - rewrite Hall', used_count_middle. rewrite Hall, used_count_middle in Hcount.
    rewrite map_size_delete_Some by eauto. simpl. rewrite Hocc0 in Hcount. lia.
Qed.

Lemma payBill_frame (lot : ParkingLot.t) (req : PaymentRequest.t) (now : Z) :
  let lot' := state_after (payBill lot req now).2 in
  ParkingLot.floors_ lot' = ParkingLot.floors_ lot ∧
  ParkingLot.active_ lot' = ParkingLot.active_ lot ∧
  ParkingLot.ticketSvc_ lot' = ParkingLot.ticketSvc_ lot ∧
  ParkingLot.paymentSvc_ lot'
  = state_after (pay (ParkingLot.paymentSvc_ lot) req now).2.
Proof.
  unfold payBill. by destruct (pay _ req now) as [log [r svc|e svc]].
Qed.

Lemma lot_inv_payBill (n : Z) (lot : ParkingLot.t) (req : PaymentRequest.t)
    (now : Z) :
  lot_inv n lot → lot_inv n (state_after (payBill lot req now).2).
Proof.
  intros [Hids Hnext Hkeys Hslot Hinj Hcount].
  destruct (payBill_frame lot req now) as (Hf & Ha & Ht & _).
  split; rewrite ?Hf, ?Ha, ?Ht; done.
Qed.

Lemma lot_inv_adjust (n : Z) (lot : ParkingLot.t) (tid minutesBack : Z) :
  lot_inv n lot → lot_inv n (state_after (adjustInTimeForTest lot tid minutesBack)).
Proof.
  intros Hinv. unfold adjustInTimeForTest.
  destruct (ParkingLot.active_ lot !! tid) as [tk0|] eqn:Htk; [|done].
  destruct Hinv as [Hids Hnext Hkeys Hslot Hinj Hcount].
  assert (Hback : ∀ k tk, alter (shift_inTime minutesBack) tid
                            (ParkingLot.active_ lot) !! k = Some tk →
            ∃ tk', ParkingLot.active_ lot !! k = Some tk' ∧
                   Ticket.slotId tk = Ticket.slotId tk').
  { intros k tk. destruct (decide (tid = k)) as [<-|Hne].
    - rewrite lookup_alter_eq, Htk. simpl. intros [= <-]. eauto.
    - rewrite lookup_alter_ne by done. eauto. }
  split; simpl; try done.
  - intros k tk (tk' & Hk & _)%Hback. eauto.
  - intros k tk (tk' & Hk & ->)%Hback. eauto.
  - intros k1 k2 tk1 tk2 (tk1' & Hk1 & ->)%Hback (tk2' & Hk2 & ->)%Hback. eauto.
  - rewrite Hcount. rewrite <- !(size_dom (D := gset Z)). by rewrite dom_alter_L.
Qed.

Lemma lot_inv_step (n : Z) (lot : ParkingLot.t) (c : LotCall) :
  n + 1 < ULLONG_MAX → lot_inv n lot → lot_inv (n + 1) (lot_step lot c).
Proof.
  intros Hn Hinv. destruct c; simpl.
  - by apply lot_inv_enter.
  - apply (lot_inv_mono n); [lia|]. by apply lot_inv_exit.
  - apply (lot_inv_mono n); [lia|]. by apply lot_inv_payBill.
  - apply (lot_inv_mono n); [lia|]. by apply lot_inv_adjust.
Qed.

Lemma lot_inv_run (calls : list LotCall) (n : Z) (lot : ParkingLot.t) :
  n + Z.of_nat (length calls) < ULLONG_MAX → lot_inv n lot →
  lot_inv (n + Z.of_nat (length calls)) (lot_run calls lot).
Proof.
  revert n lot. induction calls as [|c calls IH]; intros n lot Hn Hinv.
  - simpl. by rewrite Z.add_0_r.
  - rewrite length_cons, Nat2Z.inj_succ in *.
    replace (n + Z.succ (Z.of_nat (length calls)))
      with ((n + 1) + Z.of_nat (length calls)) in * by lia.
    apply IH; [done|]. apply lot_inv_step; [lia|done].
Qed.

(** C1, as amended.  Take a lot configured with pairwise distinct slot ids
    and all slots free, and any sequence of fewer than 2^64 - 1 calls of
    [enterVehicle], [exitVehicle], [payBill] and [adjustInTimeForTest],
    returning or throwing.  In the lot they leave (hence at every point of
    the sequence, each prefix being such a sequence) the slots with
    [isFree == false] are as many as the entries of the active-ticket
    table, [occupancy] reports that number as the used count, and its free
    count plus its used count is its total. *)
Theorem occupancy_matches_active (fs : list Floor.t) (lot0 : ParkingLot.t)
    (calls : list LotCall) :
  NoDup (ParkingSlot.id <$> all_slots fs) →
  Forall (λ s, ParkingSlot.isFree s = true) (all_slots fs) →
  Z.of_nat (length calls) < ULLONG_MAX →
  let lot := lot_run calls (configure fs lot0) in
  used_count (all_slots (ParkingLot.floors_ lot)) = size (ParkingLot.active_ lot) ∧
  (occupancy lot).1.2 = activeCount lot ∧
  (occupancy lot).1.1 + (occupancy lot).1.2 = (occupancy lot).2.
Proof.
  intros Hnd Hfree Hlen lot.
  pose proof (lot_inv_configure fs lot0 Hnd Hfree) as H0.
  apply (lot_inv_run calls) in H0; [|lia]. fold lot in H0.
  destruct H0 as [_ _ _ _ _ Hcount].
  rewrite occupancy_counts. simpl. unfold activeCount.
  pose proof (free_used_length (all_slots (ParkingLot.floors_ lot))).
  split; [done|]. split; lia.
Qed.

Lemma occupancy_matches_active_witness :
  let lot := lot_run demo_calls (configure demo_floors new_lot) in
  used_count (all_slots (ParkingLot.floors_ lot)) = size (ParkingLot.active_ lot) ∧
  (occupancy lot).1.2 = activeCount lot ∧
  (occupancy lot).1.1 + (occupancy lot).1.2 = (occupancy lot).2.
Proof.
  apply (occupancy_matches_active demo_floors new_lot demo_calls).
  - apply (bool_decide_eq_true_1
             (NoDup (ParkingSlot.id <$> all_slots demo_floors))).
    reflexivity.
  - repeat constructor.
  - reflexivity.
Defined.

(** C1 as stated fails on a layout in which two slots share an id.  All
    four calls of [twin_calls] return; the last exit looks its slot up by
    id, finds the first of the twins, already free, and frees it again:
    one slot stays occupied while no ticket is active. *)
Lemma twin_slots_break_the_count :
  Forall (λ s, ParkingSlot.isFree s = true) (all_slots twin_floors) ∧
  returns (enterVehicle (twin_lot 0) "E1" demo_bike 0) ∧
  returns (enterVehicle (twin_lot 1) "E1" demo_bike 0) ∧
  returns (exitVehicle (twin_lot 2) 2 "X1" false 0 0) ∧
  returns (exitVehicle (twin_lot 3) 1 "X1" false 0 0) ∧
  occupancy (twin_lot 4) = (1, 1, 2) ∧
  activeCount (twin_lot 4) = 0.
Proof. split; [repeat constructor|]. vm_compute. done. Qed.

(** ** Exit and the lost-ticket penalty *)

Lemma compute_amount_bound (s : SlotType) (m : Z) :
  0 ≤ m ≤ ULLONG_MAX →
  0 ≤ FeeBreakup.amount (@compute (FeeStrategyFactory_make s) m)
    ≤ ULLONG_MAX / 60 * 50.
Proof.
  intros Hm. rewrite compute_unfold.
  pose proof (fee_amount_bound s m Hm) as Hb.
  assert (ULLONG_MAX / 60 * 50 ≤ ULLONG_MAX) by by vm_compute.
  case_decide; simpl.
  - lia.
  - rewrite wrap64_small; lia.
Qed.

(** [exitVehicle] on an active ticket whose slot is found. *)
Lemma exitVehicle_found (lot : ParkingLot.t) (tid : Z) (exitGate : string)
    (lostTicket : bool) (now out : Z) (tk : Ticket.t) (f i : nat) :
  ParkingLot.active_ lot !! tid = Some tk →
  findSlotById_nolock lot (Ticket.slotId tk) = Some (f, i) →
  let fb0 := @compute (FeeStrategyFactory_make (Ticket.stype tk))
               (wrap64 (elapsed_minutes now (Ticket.inTime tk))) in
  let fb := if lostTicket then add_penalty fb0 else fb0 in
  exitVehicle lot tid exitGate lostTicket now out
  = Ret (createBill (ParkingLot.paymentSvc_ lot) tk exitGate fb out).1
      (ParkingLot.mk (store_isFree true f i (ParkingLot.floors_ lot))
         (delete tid (ParkingLot.active_ lot))
         (ParkingLot.ticketSvc_ lot)
         (createBill (ParkingLot.paymentSvc_ lot) tk exitGate fb out).2).
Proof. intros Htk Hf. unfold exitVehicle. by rewrite Htk, Hf. Qed.

(** C6.  When the ticket is active and its slot is found, [exitVehicle]
    returns a bill with or without the lost-ticket flag; without it the
    bill's amount is the fee of the strategy for the parked minutes; with
    it the amount is that fee plus exactly 200, the other fee fields being
    the same.  In particular a four-wheeler ticket with 30 parked minutes
    and the flag set is billed 220. *)
Theorem lost_ticket_adds_200 (lot : ParkingLot.t) (tid : Z) (exitGate : string)
    (now out : Z) (tk : Ticket.t) :
  ParkingLot.active_ lot !! tid = Some tk →
  is_Some (findSlotById_nolock lot (Ticket.slotId tk)) →
  let mins := wrap64 (elapsed_minutes now (Ticket.inTime tk)) in
  let fb := @compute (FeeStrategyFactory_make (Ticket.stype tk)) mins in
  ∃ bill lot' bill_lost lot'_lost,
    exitVehicle lot tid exitGate false now out = Ret bill lot' ∧
    exitVehicle lot tid exitGate true now out = Ret bill_lost lot'_lost ∧
    Bill.amount bill = FeeBreakup.amount fb ∧
    Bill.amount bill_lost = FeeBreakup.amount fb + 200 ∧
    Bill.billedHours bill_lost = FeeBreakup.billedHours fb ∧
    Bill.parkedMinutes bill_lost = mins ∧
    Bill.status bill_lost = Pending ∧
    (Ticket.stype tk = FourWheeler → mins = 30 → Bill.amount bill_lost = 220).
Proof.
  intros Htk [[f i] Hf] mins fb.
  do 4 eexists.
  split; [by apply (exitVehicle_found _ _ _ false _ _ tk f i)|].
  split; [by apply (exitVehicle_found _ _ _ true _ _ tk f i)|].
  fold mins fb. simpl.
  pose proof (compute_amount_bound (Ticket.stype tk) mins (wrap64_range _)) as Hb.
  fold fb in Hb.
  assert (ULLONG_MAX / 60 * 50 + 200 ≤ ULLONG_MAX) by by vm_compute.
  assert (Hamt : wrap64 (FeeBreakup.amount fb + LOST_TICKET_PENALTY)
                 = FeeBreakup.amount fb + 200).
  { unfold LOST_TICKET_PENALTY. rewrite wrap64_small; lia. }
  split; [done|]. split; [done|]. split; [done|].
  split; [subst fb; rewrite compute_unfold; by case_decide|].
  split; [done|].
  intros Hst Hm. rewrite Hamt. subst fb. by rewrite Hst, Hm.
Qed.

Lemma lost_ticket_adds_200_witness :
  ∃ bill lot' bill_lost lot'_lost,
    exitVehicle lost_lot 1 "X3" false 0 0 = Ret bill lot' ∧
    exitVehicle lost_lot 1 "X3" true 0 0 = Ret bill_lost lot'_lost ∧
    Bill.amount bill = 20 ∧
    Bill.amount bill_lost = 220.
Proof.
  destruct (lost_ticket_adds_200 lost_lot 1 "X3" 0 0 lost_ticket eq_refl
              (ex_intro _ (0%nat, 2%nat) eq_refl))
    as (bill & lot' & bill_lost & lot'_lost & H1 & H2 & H3 & _ & _ & _ & _ & H4).
  exists bill, lot', bill_lost, lot'_lost.
  split; [exact H1|]. split; [exact H2|]. split; [exact H3|].
  exact (H4 eq_refl eq_refl).
Defined.

(** ** Failing calls *)









(** A lot that was never configured is what configuring no floors gives. *)
Lemma new_lot_configured : configure [] new_lot = new_lot.
Proof. reflexivity. Qed.



(** ** Configuration *)

Lemma bind_inr {A B} (r : exn + A) (k : A → exn + B) (b : B) :
  r ≫= k = inr b → ∃ a, r = inr a ∧ k a = inr b.
Proof. destruct r as [e|a]; [done|]. intros H. by exists a. Qed.

Lemma load_slots_spec (jslots : list json) (slots0 slots : list ParkingSlot.t) :
  load_slots jslots slots0 = inr slots →
  ∃ new, slots = slots0 ++ new ∧ length new = length jslots ∧
         Forall (λ s, ParkingSlot.isFree s = true) new.
Proof.
  revert slots0. induction jslots as [|js rest IH]; intros slots0; simpl.
  - intros [= <-]. exists []. by rewrite app_nil_r.
  - intros (jid & _ & (id & _ & (jtype & _ & (ty & _ & (t & _ & H)%bind_inr)
              %bind_inr)%bind_inr)%bind_inr)%bind_inr.
    destruct (IH _ H) as (new & -> & Hlen & Hfree).
    exists (ParkingSlot.mk id t true :: new).
    rewrite <- app_assoc. split; [done|]. split; [simpl; lia|].
    by constructor.
Qed.

Lemma load_floor_spec (jf : json) (fl : Floor.t) :
  load_floor jf = inr fl →
  Floor.slots fl ≠ [] ∧
  Forall (λ s, ParkingSlot.isFree s = true) (Floor.slots fl).
Proof.
  unfold load_floor.
  intros (jno & _ & (floorNo & _ & (jslots & _ & H)%bind_inr)%bind_inr)%bind_inr.
  destruct jslots as [| | | |items|]; try done.
  apply bind_inr in H as (slots & Hs & H).
  destruct (load_slots_spec _ _ _ Hs) as (new & -> & _ & Hfree).
  simpl in *. destruct new as [|s new]; [done|].
  injection H as <-. done.
Qed.

Lemma load_floors_spec (jfloors : list json) (fs0 fs : list Floor.t) :
  load_floors jfloors fs0 = inr fs →
  ∃ new, fs = fs0 ++ new ∧ length new = length jfloors ∧
         Forall (λ fl, Floor.slots fl ≠ [] ∧
                       Forall (λ s, ParkingSlot.isFree s = true) (Floor.slots fl))
           new.
Proof.
  revert fs0. induction jfloors as [|jf rest IH]; intros fs0; simpl.
  - intros [= <-]. exists []. by rewrite app_nil_r.
  - intros (fl & Hfl & H)%bind_inr.
    destruct (IH _ H) as (new & -> & Hlen & Hall).
    exists (fl :: new). rewrite <- app_assoc.
    split; [done|]. split; [simpl; lia|].
    constructor; [by apply (load_floor_spec jf)|done].
Qed.

(** A floor whose "slots" array is empty is never loaded. *)
Lemma load_floor_bare (jf : json) :
  must jf "slots" = inr (JArray []) → ∃ e, load_floor jf = inl e.
Proof.
  unfold load_floor. intros Hs.
  destruct (must jf "floorNo") as [e|jno]; simpl; [eauto|].
  destruct (get_int jno) as [e|floorNo]; simpl; [eauto|].
  rewrite Hs. simpl. eauto.
Qed.

Lemma load_floors_bare (jfloors : list json) (fs0 : list Floor.t) (jf : json) :
  jf ∈ jfloors → must jf "slots" = inr (JArray []) →
  ∃ e, load_floors jfloors fs0 = inl e.
Proof.
  intros Hin Hs. revert fs0.
  induction jfloors as [|jf0 rest IH]; intros fs0; [by inversion Hin|].
  simpl. apply elem_of_cons in Hin as [<-|Hin].
  - destruct (load_floor_bare jf Hs) as [e ->]. simpl. eauto.
  - destruct (load_floor jf0) as [e|fl]; simpl; [eauto|]. by apply IH.
Qed.

(** C9, as amended.  [configure] validates nothing: it installs the list
    of floors it is given, whatever it is.  The rejection is the
    loader's: [loadConfigFromJson] throws on a document whose "floors"
    array is empty or holds a floor whose "slots" array is empty, and every
    layout it returns has at least one floor, at least one slot on every
    floor, and all slots free. *)
Theorem layout_validated_by_loader :
  (∀ fs lot, ParkingLot.floors_ (configure fs lot) = fs) ∧
  (∀ disk path j items,
     disk path = Document j → must j "floors" = inr (JArray items) →
     (items = [] ∨ ∃ jf, jf ∈ items ∧ must jf "slots" = inr (JArray [])) →
     ∃ e, loadConfigFromJson disk path = inl e) ∧
  (∀ disk path fs,
     loadConfigFromJson disk path = inr fs →
     fs ≠ [] ∧ Forall (λ fl, Floor.slots fl ≠ []) fs ∧
     Forall (λ fl, Forall (λ s, ParkingSlot.isFree s = true) (Floor.slots fl)) fs).
Proof.
  split; [done|]. split.
  - intros disk path j items Hd Hj Hbad. unfold loadConfigFromJson.
    rewrite Hd, Hj. simpl. destruct Hbad as [->|(jf & Hin & Hs)].
    + simpl. eauto.
    + destruct (load_floors_bare items [] jf Hin Hs) as [e ->]. simpl. eauto.
  - intros disk path fs. unfold loadConfigFromJson.
    destruct (disk path) as [| |j]; try done.
    intros (jfloors & _ & H)%bind_inr.
    destruct jfloors as [| | | |items|]; try done.
    apply bind_inr in H as (fs' & Hfs & H).
    destruct (load_floors_spec _ _ _ Hfs) as (new & -> & _ & Hall).
    simpl in *. destruct new as [|fl new]; [done|].
    injection H as <-. split; [done|].
    split; eapply Forall_impl; try exact Hall; by intros ? [? ?].
Qed.

(** The loader on the three documents of [demo_disk]. *)
Lemma loadConfigFromJson_demo :
  loadConfigFromJson demo_disk "parking_config.json"
  = inr [Floor.mk 1 [ParkingSlot.mk "F1-S1" TwoWheeler true;
                     ParkingSlot.mk "F1-S2" FourWheeler true]] ∧
  loadConfigFromJson demo_disk "bare_floor.json"
  = inl (runtime_error "Floor 2 has no slots in config") ∧
  loadConfigFromJson demo_disk "no_floors.json"
  = inl (runtime_error "Config has zero floors").
Proof. by vm_compute. Qed.

(** C9 as stated fails: [configure] installs the layout with no floors and
    the layout whose one floor has no slots. *)
Lemma configure_installs_bare_layouts :
  ParkingLot.floors_ (configure [] new_lot) = [] ∧
  ParkingLot.floors_ (configure [Floor.mk 1 []] new_lot) = [Floor.mk 1 []] ∧
  Floor.slots (Floor.mk 1 []) = [].
Proof. done. Qed.

(** * Further properties of the code *)

(** ** Fee policy *)

(** X1.  For a fixed slot category the fee never decreases when the parked
    minutes grow, and neither do the billed hours, as long as the minute
    count stays at most 2^64 - 60. *)
Theorem compute_monotone (s : SlotType) (m m' : Z) :
  0 ≤ m → m ≤ m' → m' ≤ ULLONG_MAX - 59 →
  FeeBreakup.amount (@compute (FeeStrategyFactory_make s) m)
    ≤ FeeBreakup.amount (@compute (FeeStrategyFactory_make s) m') ∧
  FeeBreakup.billedHours (@compute (FeeStrategyFactory_make s) m)
    ≤ FeeBreakup.billedHours (@compute (FeeStrategyFactory_make s) m').
Proof.
  intros H0 Hle Hmax.
  pose proof (compute_amount_bound s m' ltac:(unfold ULLONG_MAX in *; lia)) as Hb'.
  pose proof (ceilHours_bound m' ltac:(unfold ULLONG_MAX in *; lia)) as Hh'.
  rewrite !compute_unfold in *. unfold GRACE_MINUTES in *.
  destruct (decide (m ≤ 10)) as [Hg|Hg]; simpl.
  { case_decide; simpl in *; lia. }
  destruct (decide (m' ≤ 10)) as [Hg'|Hg']; [lia|]. simpl in *.
  pose proof (fee_amount_bound s m ltac:(unfold ULLONG_MAX in *; lia)) as Hf.
  pose proof (fee_amount_bound s m' ltac:(unfold ULLONG_MAX in *; lia)) as Hf'.
  assert (ULLONG_MAX / 60 * 50 ≤ ULLONG_MAX) by by vm_compute.
  rewrite !wrap64_small by lia.
  rewrite !ceilHours_exact in * by lia.
  assert ((m + 59) / 60 ≤ (m' + 59) / 60) by (apply Z.div_le_mono; lia).
  assert (0 < rate s) by (destruct s; simpl; lia).
  split; [nia|done].
Qed.

Lemma compute_monotone_witness :
  FeeBreakup.amount (@compute (FeeStrategyFactory_make Heavy) 60)
    ≤ FeeBreakup.amount (@compute (FeeStrategyFactory_make Heavy) 61) ∧
  FeeBreakup.billedHours (@compute (FeeStrategyFactory_make Heavy) 60)
    ≤ FeeBreakup.billedHours (@compute (FeeStrategyFactory_make Heavy) 61).
Proof.
  apply (compute_monotone Heavy 60 61); vm_compute; discriminate.
Defined.

(** ** Entry followed by exit *)

Lemma find_slot_from_alter (b : bool) (i0 i : nat) (slots : list ParkingSlot.t)
    (sid : string) :
  find_slot_from i0 (alter (with_isFree b) i slots) sid
  = find_slot_from i0 slots sid.
Proof.
  revert i0 i. induction slots as [|s rest IH]; intros i0 [|i]; simpl; try done.
  case_decide; [done|]. apply IH.
Qed.

(** The lookup by id does not depend on the flags. *)
Lemma findSlotById_from_store (b : bool) (f0 f i : nat) (floors : list Floor.t)
    (sid : string) :
  findSlotById_from f0 (store_isFree b f i floors) sid
  = findSlotById_from f0 floors sid.
Proof.
  unfold store_isFree. revert f0 f.
  induction floors as [|fl rest IH]; intros f0 [|f]; simpl; try done.
  - by rewrite find_slot_from_alter.
  - destruct (find_slot_from 0 (Floor.slots fl) sid); [done|]. apply IH.
Qed.

Lemma find_slot_from_unique (i0 i : nat) (slots : list ParkingSlot.t)
    (s : ParkingSlot.t) :
  NoDup (ParkingSlot.id <$> slots) → slots !! i = Some s →
  find_slot_from i0 slots (ParkingSlot.id s) = Some (i0 + i)%nat.
Proof.
  revert i0 i. induction slots as [|s0 rest IH]; intros i0 [|i]; simpl; try done.
  - intros _ [= ->]. rewrite decide_True by done. f_equal. lia.
  - intros [Hnotin Hnd]%NoDup_cons Hi.
    rewrite decide_False.
    + rewrite (IH (S i0) i Hnd Hi). f_equal. lia.
    + intros Heq. apply Hnotin. rewrite Heq.
      apply list_elem_of_fmap. exists s. eauto using list_elem_of_lookup_2.
Qed.

(** With pairwise distinct ids the lookup by a slot's id finds that slot. *)
Lemma findSlotById_from_unique (f0 f i : nat) (floors : list Floor.t)
    (s : ParkingSlot.t) :
  NoDup (ParkingSlot.id <$> all_slots floors) →
  slot_lookup floors f i = Some s →
  findSlotById_from f0 floors (ParkingSlot.id s) = Some ((f0 + f)%nat, i).
Proof.
  unfold slot_lookup, all_slots. revert f0 f.
  induction floors as [|fl rest IH]; intros f0 [|f]; simpl; try done.
  - rewrite fmap_app. intros [Hnd _]%NoDup_app Hi.
    rewrite (find_slot_from_unique 0 i _ s Hnd Hi). do 2 f_equal. lia.
  - rewrite fmap_app. intros (_ & Hdisj & Hnd)%NoDup_app Hl.
    destruct (find_slot_from_spec 0 (Floor.slots fl) (ParkingSlot.id s))
      as [[-> _]|(n & s' & _ & Hn & Hid)].
    + rewrite (IH (S f0) f Hnd Hl). do 2 f_equal. lia.
    + destruct (Hdisj (ParkingSlot.id s)).
      * rewrite <- Hid. apply list_elem_of_fmap. exists s'.
        eauto using list_elem_of_lookup_2.
      * apply list_elem_of_fmap. exists s. split; [done|].
        change (s ∈ all_slots rest). by eapply slot_lookup_elem_of.
Qed.

Lemma alter_fixed {A} (g : A → A) (l : list A) (i : nat) (x : A) :
  l !! i = Some x → g x = x → alter g i l = l.
Proof.
  revert i. induction l as [|y l IH]; intros [|i]; simpl; try done.
  - intros [= ->] Hg. by rewrite Hg.
  - intros Hi Hg. f_equal. by apply IH.
Qed.

(** Occupying a free slot and freeing it again gives back the floors. *)
Lemma store_isFree_undo (f i : nat) (floors : list Floor.t) (s : ParkingSlot.t) :
  slot_lookup floors f i = Some s → ParkingSlot.isFree s = true →
  store_isFree true f i (store_isFree false f i floors) = floors.
Proof.
  unfold slot_lookup, store_isFree. intros Hl Hfree.
  destruct (floors !! f) as [fl|] eqn:Hfl; simpl in Hl; [|done].
  rewrite list_alter_alter_eq. apply (alter_fixed _ _ _ fl Hfl). simpl.
  rewrite list_alter_alter_eq.
  rewrite (alter_fixed _ _ _ s Hl); [by destruct fl|].
  simpl. unfold with_isFree. simpl. destruct s. simpl in *. by subst.
Qed.

(** [exitVehicle] right after the [enterVehicle] that issued the ticket. *)
Lemma enter_then_exit (lot lot1 : ParkingLot.t) (entryGate : string)
    (v : Vehicle.t) (now tid : Z) (exitGate : string) (lostTicket : bool)
    (now2 out : Z) :
  ParkingLot.active_ lot
    !! TicketingService.nextId (ParkingLot.ticketSvc_ lot) = None →
  enterVehicle lot entryGate v now = Ret tid lot1 →
  ∃ (f i f' i' : nat) s,
    slot_lookup (ParkingLot.floors_ lot) f i = Some s ∧
    wanted (slotFor (Vehicle.type v)) s ∧
    tid = TicketingService.nextId (ParkingLot.ticketSvc_ lot) ∧
    findSlotById_nolock lot (ParkingSlot.id s) = Some (f', i') ∧
    let tk := Ticket.mk tid entryGate now (ParkingSlot.id s) (Vehicle.type v)
                (ParkingSlot.type s) (Vehicle.regNo v) in
    lot1 = ParkingLot.mk (store_isFree false f i (ParkingLot.floors_ lot))
             (<[tid := tk]> (ParkingLot.active_ lot))
             (TicketingService.mk (wrap64 (tid + 1)))
             (ParkingLot.paymentSvc_ lot) ∧
    let fb0 := @compute (FeeStrategyFactory_make (ParkingSlot.type s))
                 (wrap64 (elapsed_minutes now2 now)) in
    let fb := if lostTicket then add_penalty fb0 else fb0 in
    exitVehicle lot1 tid exitGate lostTicket now2 out
    = Ret (createBill (ParkingLot.paymentSvc_ lot) tk exitGate fb out).1
        (ParkingLot.mk
           (store_isFree true f' i'
              (store_isFree false f i (ParkingLot.floors_ lot)))
           (ParkingLot.active_ lot)
           (TicketingService.mk (wrap64 (tid + 1)))
           (createBill (ParkingLot.paymentSvc_ lot) tk exitGate fb out).2).
Proof.
  intros Hfresh Henter.
  destruct (enterVehicle_spec lot entryGate v now)
    as [[Hr _]|(f & i & s & Hl & Hw & _ & Hr)]; rewrite Hr in Henter; [done|].
  injection Henter as <- <-.
  destruct (findSlotById_nolock_spec lot (ParkingSlot.id s))
    as [[_ Hnone]|(f' & i' & s' & Hfind & _ & _)].
  { destruct (Hnone s); [by eapply slot_lookup_elem_of|done]. }
  exists f, i, f', i', s. do 4 (split; [done|]). intros tk.
  rewrite emplace_fresh by done. split; [done|]. intros fb0 fb.
  rewrite (exitVehicle_found _ _ exitGate lostTicket now2 out tk f' i').
  - simpl. by rewrite delete_insert_id.
  - simpl. apply lookup_insert_eq.
  - unfold findSlotById_nolock in *. simpl. by rewrite findSlotById_from_store.
Qed.

(** X3.  Billing end to end: when the ticket counter's next id is not in
    use, an entry reserves one slot, the one position whose flag it turns
    from free to occupied, every other position staying as it was, and
    binds the new ticket to that slot's id; the bill of the exit that
    follows carries the ticket id, the vehicle's registration, that slot's
    id, both gates and both clock readings, is [Pending], counts the
    minutes between the two calls and charges the fee of the vehicle's own
    category for them, plus 200 when the exit is flagged as a lost
    ticket. *)
Theorem enter_then_exit_bill (lot lot1 : ParkingLot.t) (entryGate : string)
    (v : Vehicle.t) (now tid : Z) (exitGate : string) (lostTicket : bool)
    (now2 out : Z) :
  ParkingLot.active_ lot
    !! TicketingService.nextId (ParkingLot.ticketSvc_ lot) = None →
  enterVehicle lot entryGate v now = Ret tid lot1 →
  let mins := wrap64 (elapsed_minutes now2 now) in
  let fb := @compute (FeeStrategyFactory_make (slotFor (Vehicle.type v))) mins in
  ∃ lot2 (f i : nat) s,
    slot_lookup (ParkingLot.floors_ lot) f i = Some s ∧
    wanted (slotFor (Vehicle.type v)) s ∧
    slot_lookup (ParkingLot.floors_ lot1) f i
    = Some (ParkingSlot.mk (ParkingSlot.id s) (ParkingSlot.type s) false) ∧
    (∀ f' i' : nat, (f', i') ≠ (f, i) →
       slot_lookup (ParkingLot.floors_ lot1) f' i'
       = slot_lookup (ParkingLot.floors_ lot) f' i') ∧
    ParkingLot.active_ lot1 !! tid
    = Some (Ticket.mk tid entryGate now (ParkingSlot.id s) (Vehicle.type v)
              (slotFor (Vehicle.type v)) (Vehicle.regNo v)) ∧
    exitVehicle lot1 tid exitGate lostTicket now2 out
    = Ret (Bill.mk (PaymentService.nextBill_ (ParkingLot.paymentSvc_ lot)) tid
             (Vehicle.regNo v) (ParkingSlot.id s) entryGate exitGate now out
             mins (FeeBreakup.billedHours fb)
             (FeeBreakup.amount fb + (if lostTicket then 200 else 0))
             Pending)
        lot2.
Proof.
  intros Hfresh Henter mins fb.
  destruct (enter_then_exit lot lot1 entryGate v now tid exitGate lostTicket
              now2 out Hfresh Henter)
    as (f & i & f' & i' & s & Hl & Hw & Htid & _ & Hlot1 & Hexit).
  eexists _, f, i, s. split; [done|]. split; [done|].
  destruct Hw as [Hty _].
  split; [rewrite Hlot1; simpl; by rewrite slot_lookup_store_eq, Hl|].
  split; [intros f0 i0 Hne; rewrite Hlot1; simpl; by apply slot_lookup_store_ne|].
  split; [rewrite Hlot1; simpl; by rewrite lookup_insert_eq, Hty|].
  rewrite Hexit. rewrite Hty. fold mins fb.
  f_equal. unfold createBill. simpl. f_equal.
  - subst fb. rewrite compute_unfold. destruct lostTicket; by case_decide.
  - subst fb. rewrite compute_unfold. destruct lostTicket; by case_decide.
  - pose proof (compute_amount_bound (slotFor (Vehicle.type v)) mins
                  (wrap64_range _)) as Hb.
    assert (ULLONG_MAX / 60 * 50 + 200 ≤ ULLONG_MAX) by by vm_compute.
    fold fb in Hb. destruct lostTicket; simpl; [|lia].
    unfold LOST_TICKET_PENALTY. rewrite wrap64_small; lia.
Qed.

Lemma enter_then_exit_bill_witness :
  ∃ lot2 (f i : nat) s,
    slot_lookup demo_floors f i = Some s ∧ wanted FourWheeler s ∧
    slot_lookup
      (ParkingLot.floors_
         (state_after (enterVehicle (configure demo_floors new_lot)
                         "E2" demo_car 0))) f i
    = Some (ParkingSlot.mk (ParkingSlot.id s) (ParkingSlot.type s) false) ∧
    (∀ f' i' : nat, (f', i') ≠ (f, i) →
       slot_lookup
         (ParkingLot.floors_
            (state_after (enterVehicle (configure demo_floors new_lot)
                            "E2" demo_car 0))) f' i'
       = slot_lookup demo_floors f' i') ∧
    ParkingLot.active_
      (state_after (enterVehicle (configure demo_floors new_lot)
                      "E2" demo_car 0)) !! 1
    = Some (Ticket.mk 1 "E2" 0 (ParkingSlot.id s) Car FourWheeler "DL8CAF1234") ∧
    exitVehicle (state_after (enterVehicle (configure demo_floors new_lot)
                                "E2" demo_car 0))
      1 "X2" true (95 * TICKS_PER_MINUTE) (96 * TICKS_PER_MINUTE)
    = Ret (Bill.mk 1 1 "DL8CAF1234" (ParkingSlot.id s) "E2" "X2" 0
             (96 * TICKS_PER_MINUTE) 95 2 240 Pending)
        lot2.
Proof.
  exact (enter_then_exit_bill (configure demo_floors new_lot)
           (state_after (enterVehicle (configure demo_floors new_lot)
                           "E2" demo_car 0))
           "E2" demo_car 0 1 "X2" true
           (95 * TICKS_PER_MINUTE) (96 * TICKS_PER_MINUTE) eq_refl eq_refl).
Defined.

(** X4.  Entry and exit undo each other on the inventory: with pairwise
    distinct slot ids and a next ticket id that is not in use, the exit
    that follows an entry returns and leaves the slots' flags and the
    active-ticket table exactly as they were before the entry. *)
Theorem enter_then_exit_restores (lot lot1 : ParkingLot.t) (entryGate : string)
    (v : Vehicle.t) (now tid : Z) (exitGate : string) (lostTicket : bool)
    (now2 out : Z) :
  NoDup (ParkingSlot.id <$> all_slots (ParkingLot.floors_ lot)) →
  ParkingLot.active_ lot
    !! TicketingService.nextId (ParkingLot.ticketSvc_ lot) = None →
  enterVehicle lot entryGate v now = Ret tid lot1 →
  ∃ bill lot2,
    exitVehicle lot1 tid exitGate lostTicket now2 out = Ret bill lot2 ∧
    ParkingLot.floors_ lot2 = ParkingLot.floors_ lot ∧
    ParkingLot.active_ lot2 = ParkingLot.active_ lot ∧
    occupancy lot2 = occupancy lot ∧ activeCount lot2 = activeCount lot.
Proof.
  intros Hnd Hfresh Henter.
  destruct (enter_then_exit lot lot1 entryGate v now tid exitGate lostTicket
              now2 out Hfresh Henter)
    as (f & i & f' & i' & s & Hl & [_ Hfree] & -> & Hfind & _ & Hexit).
  unfold findSlotById_nolock in Hfind.
  rewrite (findSlotById_from_unique 0 f i _ s Hnd Hl) in Hfind.
  injection Hfind as <- <-.
  rewrite (store_isFree_undo f i _ s Hl Hfree) in Hexit.
  do 2 eexists. split; [exact Hexit|]. done.
Qed.

Lemma enter_then_exit_restores_witness :
  ∃ bill lot2,
    exitVehicle (state_after (enterVehicle (configure demo_floors new_lot)
                                "E2" demo_car 0))
      1 "X2" false 0 0 = Ret bill lot2 ∧
    ParkingLot.floors_ lot2 = demo_floors ∧
    ParkingLot.active_ lot2 = ∅ ∧
    occupancy lot2 = occupancy (configure demo_floors new_lot) ∧
    activeCount lot2 = activeCount (configure demo_floors new_lot).
Proof.
  apply (enter_then_exit_restores (configure demo_floors new_lot)
           (state_after (enterVehicle (configure demo_floors new_lot)
                           "E2" demo_car 0))
           "E2" demo_car 0 1 "X2" false 0 0).
  - apply (bool_decide_eq_true_1
             (NoDup (ParkingSlot.id <$> all_slots demo_floors))).
    reflexivity.
  - reflexivity.
  - reflexivity.
Defined.

(** ** Identifiers *)

Lemma enters_returned_le (calls : list LotCall) (lot : ParkingLot.t) :
  (enters_returned calls lot ≤ length calls)%nat.
Proof.
  revert lot. induction calls as [|c calls IH]; intros lot; simpl; [lia|].
  specialize (IH (lot_step lot c)).
  destruct c; try lia. destruct (enterVehicle _ _ _ _); lia.
Qed.

(** The ticket counter after a run, while it cannot wrap. *)
Lemma nextId_run (calls : list LotCall) (lot : ParkingLot.t) :
  1 ≤ TicketingService.nextId (ParkingLot.ticketSvc_ lot) →
  TicketingService.nextId (ParkingLot.ticketSvc_ lot) + Z.of_nat (length calls)
    ≤ ULLONG_MAX →
  TicketingService.nextId (ParkingLot.ticketSvc_ (lot_run calls lot))
  = TicketingService.nextId (ParkingLot.ticketSvc_ lot)
    + Z.of_nat (enters_returned calls lot).
Proof.
  revert lot. induction calls as [|c calls IH]; intros lot H1 Hmax.
  - simpl. lia.
  - rewrite length_cons, Nat2Z.inj_succ in Hmax.
    assert (Hstep : TicketingService.nextId (ParkingLot.ticketSvc_ (lot_step lot c))
                    = TicketingService.nextId (ParkingLot.ticketSvc_ lot)
                      + Z.of_nat (enters_returned [c] lot)).
    { destruct c as [gate v now|tid gate lost now out|req now|tid back]; simpl.
      - destruct (enterVehicle_spec lot gate v now)
          as [[-> _]|(f & i & s & _ & _ & _ & ->)]; simpl; [lia|].
        rewrite wrap64_small; lia.
      - unfold exitVehicle.
        destruct (ParkingLot.active_ lot !! tid) as [tk|]; simpl; [|lia].
        destruct (findSlotById_nolock lot (Ticket.slotId tk)) as [[f i]|];
          simpl; lia.
      - destruct (payBill_frame lot req now) as (_ & _ & -> & _). lia.
      - unfold adjustInTimeForTest.
        destruct (ParkingLot.active_ lot !! tid); simpl; lia. }
    pose proof (enters_returned_le [c] lot) as Hle.
    change (length [c]) with 1%nat in Hle.
    assert (Hsplit : enters_returned (c :: calls) lot
                     = (enters_returned [c] lot
                        + enters_returned calls (lot_step lot c))%nat)
      by (simpl; lia).
    change (lot_run (c :: calls) lot) with (lot_run calls (lot_step lot c)).
    rewrite IH by (rewrite Hstep; lia).
    rewrite Hstep, Hsplit. lia.
Qed.

Lemma tickets_numbered_step (lot : ParkingLot.t) (c : LotCall) :
  TicketingService.nextId (ParkingLot.ticketSvc_ lot) < ULLONG_MAX →
  tickets_numbered lot → tickets_numbered (lot_step lot c).
Proof.
  unfold tickets_numbered. intros Hmax [H1 Hn].
  destruct c as [gate v now|tid gate lost now out|req now|tid back]; simpl.
  - destruct (enterVehicle_spec lot gate v now)
      as [[-> _]|(f & i & s & _ & _ & _ & ->)]; [done|]. simpl.
    rewrite wrap64_small by lia. split; [lia|].
    unfold emplace.
    destruct (ParkingLot.active_ lot !! _) as [tk0|] eqn:E.
    { apply Hn in E. lia. }
    intros k tk [[<- <-]|[_ Hk]]%lookup_insert_Some; simpl; [lia|].
    apply Hn in Hk. lia.
  - unfold exitVehicle.
    destruct (ParkingLot.active_ lot !! tid) as [tk|]; [|done].
    destruct (findSlotById_nolock lot (Ticket.slotId tk)) as [[f i]|]; simpl;
      (split; [done|]); intros k tk' [_ Hk]%lookup_delete_Some; eauto.
  - destruct (payBill_frame lot req now) as (_ & -> & -> & _). done.
  - unfold adjustInTimeForTest.
    destruct (ParkingLot.active_ lot !! tid) as [tk0|] eqn:Htk; [|done]. simpl.
    split; [done|]. intros k tk. destruct (decide (tid = k)) as [<-|Hne].
    + rewrite lookup_alter_eq, Htk. simpl. intros [= <-]. simpl. eauto.
    + rewrite lookup_alter_ne by done. eauto.
Qed.

Lemma tickets_numbered_run (calls : list LotCall) (lot : ParkingLot.t) :
  TicketingService.nextId (ParkingLot.ticketSvc_ lot) + Z.of_nat (length calls)
    ≤ ULLONG_MAX →
  tickets_numbered lot → tickets_numbered (lot_run calls lot).
Proof.
  revert lot. induction calls as [|c calls IH]; intros lot Hmax Hn; [done|].
  rewrite length_cons, Nat2Z.inj_succ in Hmax.
  change (lot_run (c :: calls) lot) with (lot_run calls (lot_step lot c)).
  pose proof (nextId_run [c] lot (proj1 Hn) ltac:(simpl; lia)) as Hstep.
  pose proof (enters_returned_le [c] lot) as Hle.
  change (length [c]) with 1%nat in Hle.
  change (lot_run [c] lot) with (lot_step lot c) in Hstep.
  apply IH; [lia|]. apply tickets_numbered_step; [lia|done].
Qed.

(** X5.  After [configure] and fewer than 2^64 - 2 calls, the ticket
    counter is one more than the number of [enterVehicle] calls that
    returned, every active ticket is stored under the id it carries, and a
    further [enterVehicle] that returns hands out exactly the counter's
    value: an id larger than that of every active ticket, under which the
    new ticket is then active. *)
Theorem ticket_ids_count_entries (fs : list Floor.t) (lot0 : ParkingLot.t)
    (calls : list LotCall) :
  Z.of_nat (length calls) + 1 < ULLONG_MAX →
  let lot := lot_run calls (configure fs lot0) in
  let next := TicketingService.nextId (ParkingLot.ticketSvc_ lot) in
  next = 1 + Z.of_nat (enters_returned calls (configure fs lot0)) ∧
  (∀ k tk, ParkingLot.active_ lot !! k = Some tk →
     Ticket.id tk = k ∧ 1 ≤ k < next) ∧
  (∀ entryGate v now tid lot',
     enterVehicle lot entryGate v now = Ret tid lot' →
     tid = next ∧
     TicketingService.nextId (ParkingLot.ticketSvc_ lot') = tid + 1 ∧
     ∃ tk, ParkingLot.active_ lot' !! tid = Some tk ∧ Ticket.id tk = tid ∧
           Ticket.vehicleReg tk = Vehicle.regNo v ∧
           Ticket.entryGateId tk = entryGate ∧ Ticket.inTime tk = now).
Proof.
  intros Hlen lot next.
  assert (H0 : tickets_numbered (configure fs lot0)) by (split; [done|by intros k tk ?]).
  pose proof (nextId_run calls (configure fs lot0) ltac:(done) ltac:(simpl; lia))
    as Hnext.
  pose proof (tickets_numbered_run calls (configure fs lot0)
                ltac:(simpl; lia) H0) as [H1 Hn].
  pose proof (enters_returned_le calls (configure fs lot0)) as Hle.
  fold lot in Hnext, H1, Hn. fold next in Hnext, H1, Hn. simpl in Hnext.
  split; [done|]. split; [done|].
  intros gate v now tid lot' Henter.
  destruct (enterVehicle_spec lot gate v now)
    as [[Hr _]|(f & i & s & _ & _ & _ & Hr)]; rewrite Hr in Henter; [done|].
  injection Henter as <- <-. fold next. simpl.
  split; [done|]. split; [rewrite wrap64_small; lia|].
  rewrite emplace_fresh.
  - eexists. rewrite lookup_insert_eq. done.
  - destruct (ParkingLot.active_ lot !! next) as [tk|] eqn:E; [|done].
    apply Hn in E. lia.
Qed.

Lemma ticket_ids_count_entries_witness :
  let lot := lot_run demo_calls (configure demo_floors new_lot) in
  TicketingService.nextId (ParkingLot.ticketSvc_ lot) = 3.
Proof.
  exact (proj1 (ticket_ids_count_entries demo_floors new_lot demo_calls eq_refl)).
Defined.

Lemma retired_step (tid : Z) (lot : ParkingLot.t) (c : LotCall) :
  TicketingService.nextId (ParkingLot.ticketSvc_ lot) < ULLONG_MAX →
  1 ≤ TicketingService.nextId (ParkingLot.ticketSvc_ lot) →
  retired tid lot → retired tid (lot_step lot c).
Proof.
  unfold retired. intros Hmax H1 [Hlt Hnone].
  destruct c as [gate v now|tid' gate lost now out|req now|tid' back]; simpl.
  - destruct (enterVehicle_spec lot gate v now)
      as [[-> _]|(f & i & s & _ & _ & _ & ->)]; [done|]. simpl.
    rewrite wrap64_small by lia. split; [lia|].
    unfold emplace.
    destruct (ParkingLot.active_ lot
                !! TicketingService.nextId (ParkingLot.ticketSvc_ lot));
      [done|].
    rewrite lookup_insert_ne; [done|lia].
  - unfold exitVehicle.
    destruct (ParkingLot.active_ lot !! tid') as [tk|]; [|done].
    destruct (findSlotById_nolock lot (Ticket.slotId tk)) as [[f i]|]; simpl;
      (split; [done|]); by apply lookup_delete_None; right.
  - destruct (payBill_frame lot req now) as (_ & -> & -> & _). done.
  - unfold adjustInTimeForTest.
    destruct (ParkingLot.active_ lot !! tid') as [tk0|] eqn:Htk; [|done]. simpl.
    split; [done|]. destruct (decide (tid' = tid)) as [->|Hne].
    + congruence.
    + by rewrite lookup_alter_ne.
Qed.

Lemma retired_run (tid : Z) (calls : list LotCall) (lot : ParkingLot.t) :
  1 ≤ TicketingService.nextId (ParkingLot.ticketSvc_ lot) →
  TicketingService.nextId (ParkingLot.ticketSvc_ lot) + Z.of_nat (length calls)
    ≤ ULLONG_MAX →
  retired tid lot → retired tid (lot_run calls lot).
Proof.
  revert lot. induction calls as [|c calls IH]; intros lot H1 Hmax Hr; [done|].
  rewrite length_cons, Nat2Z.inj_succ in Hmax.
  change (lot_run (c :: calls) lot) with (lot_run calls (lot_step lot c)).
  pose proof (nextId_run [c] lot H1 ltac:(simpl; lia)) as Hstep.
  pose proof (enters_returned_le [c] lot) as Hle.
  change (length [c]) with 1%nat in Hle.
  change (lot_run [c] lot) with (lot_step lot c) in Hstep.
  apply IH; [lia|lia|]. apply retired_step; [lia|done|done].
Qed.

(** X2.  A ticket serves one exit only: once an [exitVehicle] has
    returned, then after any further [enterVehicle], [exitVehicle],
    [payBill] and [adjustInTimeForTest] calls on that lot (fewer than
    2^64 - 2 calls since [configure] in all) the ticket id is not active,
    and an [exitVehicle] with it throws "Invalid or already-closed ticket"
    and changes nothing.  ([configure] is not among these calls: it
    restarts the numbering.) *)
Theorem exited_ticket_stays_closed (fs : list Floor.t) (lot0 lot' : ParkingLot.t)
    (calls later : list LotCall) (tid : Z) (exitGate : string)
    (lostTicket : bool) (now out : Z) (bill : Bill.t) :
  Z.of_nat (length calls) + Z.of_nat (length later) + 1 < ULLONG_MAX →
  exitVehicle (lot_run calls (configure fs lot0)) tid exitGate lostTicket now out
  = Ret bill lot' →
  ParkingLot.active_ (lot_run later lot') !! tid = None ∧
  ∀ exitGate2 lostTicket2 now2 out2,
    exitVehicle (lot_run later lot') tid exitGate2 lostTicket2 now2 out2
    = Throw (runtime_error "Invalid or already-closed ticket")
        (lot_run later lot').
Proof.
  intros Hlen Hexit.
  set (lot := lot_run calls (configure fs lot0)) in *.
  assert (H0 : tickets_numbered (configure fs lot0))
    by (split; [done|by intros k tk ?]).
  pose proof (nextId_run calls (configure fs lot0) ltac:(done)
                ltac:(simpl; lia)) as Hnext.
  pose proof (tickets_numbered_run calls (configure fs lot0)
                ltac:(simpl; lia) H0) as [H1 Hn].
  pose proof (enters_returned_le calls (configure fs lot0)) as Hle.
  fold lot in Hnext, H1, Hn. simpl in Hnext.
  unfold exitVehicle in Hexit.
  destruct (ParkingLot.active_ lot !! tid) as [tk|] eqn:Htk; [|done].
  destruct (findSlotById_nolock lot (Ticket.slotId tk)) as [[f i]|]; [|done].
  unfold createBill in Hexit. simpl in Hexit. injection Hexit as _ <-.
  apply Hn in Htk as [_ Hrange].
  match goal with |- context [lot_run later ?l] => set (lot' := l) end.
  assert (Hr : retired tid (lot_run later lot')).
  { apply retired_run; subst lot'; simpl; [lia|lia|].
    split; simpl; [lia|apply lookup_delete_eq]. }
  destruct Hr as [_ Hnone]. split; [done|].
  intros gate2 lost2 now2 out2. unfold exitVehicle. by rewrite Hnone.
Qed.

Lemma exited_ticket_stays_closed_witness :
  exitVehicle
    (lot_run [Enter "E4" demo_bike 3; AdjustInTime 2 10]
       (state_after (exitVehicle lost_lot 1 "X3" true 0 0)))
    1 "X4" false 9 9
  = Throw (runtime_error "Invalid or already-closed ticket")
      (lot_run [Enter "E4" demo_bike 3; AdjustInTime 2 10]
         (state_after (exitVehicle lost_lot 1 "X3" true 0 0))).
Proof.
  destruct (exited_ticket_stays_closed demo_floors new_lot
              (state_after (exitVehicle lost_lot 1 "X3" true 0 0))
              [Enter "E3" demo_car 0; AdjustInTime 1 30]
              [Enter "E4" demo_bike 3; AdjustInTime 2 10]
              1 "X3" true 0 0
              (Bill.mk 1 1 "DL8CAF1234" "F1-S3" "E3" "X3"
                 (- 30 * TICKS_PER_MINUTE) 0 30 1 220 Pending)
              eq_refl eq_refl) as [_ H].
  exact (H "X4" false 9 9).
Defined.

Lemma bills_numbered_mono (n n' : Z) (svc : PaymentService.t) :
  n ≤ n' → bills_numbered n svc → bills_numbered n' svc.
Proof. intros Hn [H1 Hb]. split; [lia|done]. Qed.

Lemma bills_numbered_store_status (n id : Z) (st : BillStatus)
    (svc : PaymentService.t) :
  bills_numbered n svc → bills_numbered n (store_status id st svc).
Proof.
  intros [H1 Hb]. split; [done|]. simpl. intros k b.
  destruct (decide (id = k)) as [<-|Hne].
  - rewrite lookup_alter_eq.
    destruct (PaymentService.bills_ svc !! id) as [b0|] eqn:E; [|done].
    simpl. intros [= <-]. by apply Hb in E.
  - rewrite lookup_alter_ne by done. apply Hb.
Qed.

Lemma bills_numbered_pay (n : Z) (svc : PaymentService.t)
    (req : PaymentRequest.t) (now : Z) :
  bills_numbered n svc → bills_numbered n (state_after (pay svc req now).2).
Proof.
  intros Hb. unfold pay.
  destruct (PaymentService.bills_ svc !! PaymentRequest.bill req); [|done].
  repeat case_decide; try done.
  destruct (charge _ req "") as [[] ?]; simpl;
    by apply bills_numbered_store_status.
Qed.

Lemma bills_numbered_cancel (n id : Z) (svc : PaymentService.t) :
  bills_numbered n svc → bills_numbered n (state_after (cancel svc id)).
Proof.
  intros Hb. unfold cancel.
  destruct (PaymentService.bills_ svc !! id); [|done].
  case_decide; [done|]. by apply bills_numbered_store_status.
Qed.

(** [createBill] while the counter cannot wrap: a fresh id, the bill
    stored under it, every other entry untouched. *)
Lemma createBill_numbered (n : Z) (svc : PaymentService.t) (tk : Ticket.t)
    (exitGate : string) (fb : FeeBreakup.t) (now : Z) :
  n + 1 < ULLONG_MAX → bills_numbered n svc →
  let r := createBill svc tk exitGate fb now in
  Bill.id r.1 = PaymentService.nextBill_ svc ∧
  get svc (Bill.id r.1) = None ∧
  get r.2 (Bill.id r.1) = Some r.1 ∧
  (∀ k, k ≠ Bill.id r.1 → get r.2 k = get svc k) ∧
  PaymentService.nextBill_ r.2 = Bill.id r.1 + 1 ∧
  bills_numbered (n + 1) r.2.
Proof.
  intros Hn [H1 Hb]. unfold createBill, get. simpl.
  assert (Hfresh : PaymentService.bills_ svc !! PaymentService.nextBill_ svc = None).
  { destruct (PaymentService.bills_ svc !! _) as [b|] eqn:E; [|done].
    apply Hb in E. lia. }
  rewrite emplace_fresh by done. rewrite wrap64_small by lia.
  split; [done|]. split; [done|]. split; [apply lookup_insert_eq|].
  split; [intros k Hk; by apply lookup_insert_ne|]. split; [done|].
  split; simpl; [lia|].
  intros k b [[<- <-]|[_ Hk]]%lookup_insert_Some; simpl; [lia|].
  apply Hb in Hk. lia.
Qed.

Lemma bills_numbered_ledger_step (n : Z) (svc : PaymentService.t)
    (c : LedgerCall) :
  n + 1 < ULLONG_MAX → bills_numbered n svc →
  bills_numbered (n + 1) (ledger_step svc c).
Proof.
  intros Hn Hb. destruct c as [tk gate fb now|req now|id]; simpl.
  - by apply createBill_numbered.
  - apply (bills_numbered_mono n); [lia|]. by apply bills_numbered_pay.
  - apply (bills_numbered_mono n); [lia|]. by apply bills_numbered_cancel.
Qed.

Lemma bills_numbered_ledger_run (calls : list LedgerCall) (n : Z)
    (svc : PaymentService.t) :
  n + Z.of_nat (length calls) < ULLONG_MAX → bills_numbered n svc →
  bills_numbered (n + Z.of_nat (length calls)) (ledger_run calls svc).
Proof.
  revert n svc. induction calls as [|c calls IH]; intros n svc Hn Hb.
  - simpl. by rewrite Z.add_0_r.
  - rewrite length_cons, Nat2Z.inj_succ in *.
    replace (n + Z.succ (Z.of_nat (length calls)))
      with ((n + 1) + Z.of_nat (length calls)) in * by lia.
    apply IH; [done|]. apply bills_numbered_ledger_step; [lia|done].
Qed.

Lemma bills_numbered_lot_step (n : Z) (lot : ParkingLot.t) (c : LotCall) :
  n + 1 < ULLONG_MAX → bills_numbered n (ParkingLot.paymentSvc_ lot) →
  bills_numbered (n + 1) (ParkingLot.paymentSvc_ (lot_step lot c)).
Proof.
  intros Hn Hb.
  destruct c as [gate v now|tid gate lost now out|req now|tid back]; simpl.
  - apply (bills_numbered_mono n); [lia|].
    destruct (enterVehicle_spec lot gate v now)
      as [[-> _]|(f & i & s & _ & _ & _ & ->)]; done.
  - unfold exitVehicle.
    destruct (ParkingLot.active_ lot !! tid) as [tk|];
      [|by apply (bills_numbered_mono n); [lia|]].
    destruct (findSlotById_nolock lot (Ticket.slotId tk)) as [[f i]|];
      [|by apply (bills_numbered_mono n); [lia|]].
    by apply createBill_numbered.
  - apply (bills_numbered_mono n); [lia|].
    destruct (payBill_frame lot req now) as (_ & _ & _ & ->).
    by apply bills_numbered_pay.
  - apply (bills_numbered_mono n); [lia|]. unfold adjustInTimeForTest.
    by destruct (ParkingLot.active_ lot !! tid).
Qed.

Lemma bills_numbered_lot_run (calls : list LotCall) (n : Z) (lot : ParkingLot.t) :
  n + Z.of_nat (length calls) < ULLONG_MAX →
  bills_numbered n (ParkingLot.paymentSvc_ lot) →
  bills_numbered (n + Z.of_nat (length calls))
    (ParkingLot.paymentSvc_ (lot_run calls lot)).
Proof.
  revert n lot. induction calls as [|c calls IH]; intros n lot Hn Hb.
  - simpl. by rewrite Z.add_0_r.
  - rewrite length_cons, Nat2Z.inj_succ in *.
    replace (n + Z.succ (Z.of_nat (length calls)))
      with ((n + 1) + Z.of_nat (length calls)) in * by lia.
    change (lot_run (c :: calls) lot) with (lot_run calls (lot_step lot c)).
    apply IH; [done|]. apply bills_numbered_lot_step; [lia|done].
Qed.

(** X6.  On a ledger that was [reset] and has since served fewer than
    2^64 - 2 calls, [createBill] draws an id under which no bill is
    stored, stores the new bill, [Pending], under it, so that [get]
    returns it, and leaves every other bill as it was; every stored bill
    sits under the id it carries. *)
Theorem createBill_then_get (svc0 : PaymentService.t) (calls : list LedgerCall)
    (tk : Ticket.t) (exitGate : string) (fb : FeeBreakup.t) (now : Z) :
  Z.of_nat (length calls) + 1 < ULLONG_MAX →
  let svc := ledger_run calls (reset svc0) in
  let r := createBill svc tk exitGate fb now in
  get svc (Bill.id r.1) = None ∧
  get r.2 (Bill.id r.1) = Some r.1 ∧
  Bill.status r.1 = Pending ∧ Bill.amount r.1 = FeeBreakup.amount fb ∧
  Bill.ticket r.1 = Ticket.id tk ∧
  (∀ k, k ≠ Bill.id r.1 → get r.2 k = get svc k) ∧
  (∀ k b, get svc k = Some b → Bill.id b = k).
Proof.
  intros Hlen svc r.
  assert (H0 : bills_numbered 0 (reset svc0)) by (split; [simpl; lia|done]).
  pose proof (bills_numbered_ledger_run calls 0 (reset svc0) ltac:(lia) H0) as Hb.
  fold svc in Hb.
  destruct (createBill_numbered (0 + Z.of_nat (length calls)) svc tk exitGate
              fb now ltac:(lia) Hb)
    as (_ & Hnone & Hget & Hother & _ & _).
  subst r. split; [exact Hnone|]. split; [exact Hget|].
  do 3 (split; [reflexivity|]). split; [exact Hother|].
  intros k b Hk. by destruct (proj2 Hb k b Hk).
Qed.

Lemma createBill_then_get_witness :
  get (createBill declined_ledger demo_ticket "X9" (FeeBreakup.mk 40 2 95) 7).2 2
  = Some (createBill declined_ledger demo_ticket "X9" (FeeBreakup.mk 40 2 95) 7).1.
Proof.
  pose proof (createBill_then_get empty_ledger
                [CreateBill demo_ticket "X2" (FeeBreakup.mk 20 1 30) 1800;
                 Pay short_card_request 1900]
                demo_ticket "X9" (FeeBreakup.mk 40 2 95) 7 eq_refl)
    as (_ & H & _).
  exact H.
Defined.

(** X7.  Exit hands over to payment: after [configure] and fewer than
    2^64 - 2 calls, the bill an [exitVehicle] returns is the one [get]
    finds under its id, and a [payBill] naming that id hands the request to
    the processor once; when the processor accepts, the receipt carries the
    bill's id, ticket and amount and the bill is [Paid]; when it declines,
    [payBill] throws and the bill is [Failed].  Either way the slots and
    the active tickets are as the exit left them. *)
Theorem exit_then_payBill (fs : list Floor.t) (lot0 lot' : ParkingLot.t)
    (calls : list LotCall) (tid : Z) (exitGate : string) (lostTicket : bool)
    (now out : Z) (bill : Bill.t) (req : PaymentRequest.t) (now2 : Z) :
  Z.of_nat (length calls) + 1 < ULLONG_MAX →
  exitVehicle (lot_run calls (configure fs lot0)) tid exitGate lostTicket now out
  = Ret bill lot' →
  PaymentRequest.bill req = Bill.id bill →
  get (ParkingLot.paymentSvc_ lot') (Bill.id bill) = Some bill ∧
  Bill.status bill = Pending ∧ Bill.ticket bill = tid ∧
  let proc := makeProcessor (PaymentRequest.method req) in
  let lot'' := state_after (payBill lot' req now2).2 in
  (payBill lot' req now2).1 = [req] ∧
  ParkingLot.floors_ lot'' = ParkingLot.floors_ lot' ∧
  ParkingLot.active_ lot'' = ParkingLot.active_ lot' ∧
  match (payBill lot' req now2).2 with
  | Ret r _ =>
      (charge proc req "").1 = true ∧
      r = Receipt.mk (Bill.id bill) tid (Bill.amount bill) (name proc) now2 ∧
      get (ParkingLot.paymentSvc_ lot'') (Bill.id bill)
      = Some (Bill.set_status Paid bill)
  | Throw e _ =>
      (charge proc req "").1 = false ∧
      e = runtime_error (String.append "Payment failed: " (charge proc req "").2) ∧
      get (ParkingLot.paymentSvc_ lot'') (Bill.id bill)
      = Some (Bill.set_status Failed bill)
  end.
Proof.
  intros Hlen Hexit Hreq.
  set (lot := lot_run calls (configure fs lot0)) in *.
  assert (Hb : bills_numbered (0 + Z.of_nat (length calls))
                 (ParkingLot.paymentSvc_ lot)).
  { apply bills_numbered_lot_run; [lia|]. split; [simpl; lia|done]. }
  assert (Hk : tickets_numbered lot).
  { apply tickets_numbered_run; [simpl; lia|]. split; [done|by intros k tk ?]. }
  unfold exitVehicle in Hexit.
  destruct (ParkingLot.active_ lot !! tid) as [tk|] eqn:Htk; [|done].
  destruct (findSlotById_nolock lot (Ticket.slotId tk)) as [[f i]|]; [|done].
  set (fb := if lostTicket then _ else _) in Hexit.
  destruct (createBill_numbered (0 + Z.of_nat (length calls))
              (ParkingLot.paymentSvc_ lot) tk exitGate fb out
              ltac:(lia) Hb) as (_ & _ & Hget & _ & _ & _).
  destruct (createBill (ParkingLot.paymentSvc_ lot) tk exitGate fb out)
    as [b svc'] eqn:Hcb.
  assert (Hst : Bill.status b = Pending ∧ Bill.ticket b = Ticket.id tk).
  { unfold createBill in Hcb. by injection Hcb as <- _. }
  injection Hexit as -> <-. simpl in Hget. simpl.
  destruct Hst as [Hst Htkid]. destruct (proj2 Hk tid tk Htk) as [Hid _].
  split; [done|]. split; [done|]. split; [congruence|].
  destruct (payBill_frame
              (ParkingLot.mk (store_isFree true f i (ParkingLot.floors_ lot))
                 (delete tid (ParkingLot.active_ lot))
                 (ParkingLot.ticketSvc_ lot) svc') req now2)
    as (Hf & Ha & _ & Hp).
  split; [|split; [exact Hf|split; [exact Ha|]]].
  - unfold payBill. simpl. rewrite (pay_pending svc' req now2 bill) by congruence.
    simpl. by destruct (charge _ req "") as [[] ?].
  - rewrite Hp. unfold payBill. simpl.
    rewrite (pay_pending svc' req now2 bill) by congruence.
    simpl. destruct (charge _ req "") as [[] reason]; simpl;
      rewrite Hreq, get_store_status, Hget; simpl;
      repeat split; congruence.
Qed.

Lemma exit_then_payBill_witness :
  (payBill (state_after (exitVehicle lost_lot 1 "X3" true 0 0))
     (PaymentRequest.mk 1 220 UPI "" "anil@upi") 5).2
  = Ret (Receipt.mk 1 1 220 "UPI" 5)
      (state_after
         (payBill (state_after (exitVehicle lost_lot 1 "X3" true 0 0))
            (PaymentRequest.mk 1 220 UPI "" "anil@upi") 5).2).
Proof.
  pose proof (exit_then_payBill demo_floors new_lot
                (state_after (exitVehicle lost_lot 1 "X3" true 0 0))
                [Enter "E3" demo_car 0; AdjustInTime 1 30] 1 "X3" true 0 0
                (Bill.mk 1 1 "DL8CAF1234" "F1-S3" "E3" "X3"
                   (- 30 * TICKS_PER_MINUTE) 0 30 1 220 Pending)
                (PaymentRequest.mk 1 220 UPI "" "anil@upi") 5
                eq_refl eq_refl eq_refl)
    as (_ & _ & _ & _ & _ & _ & H).
  destruct (payBill _ _ _).2 as [r lot''|e lot'']; simpl.
  - destruct H as (_ & -> & _). reflexivity.
  - destruct H as (H & _). discriminate H.
Defined.

(** ** Closed bills *)

(** X8.  A bill that is [Failed] or [Cancelled] is closed for payment:
    every [pay] naming it throws "Bill is not payable (status !=
    Pending)" without handing the request to a processor and without
    changing the ledger, and whatever calls follow, the bill is never
    [Paid] or [Pending] again; a [Cancelled] bill stays [Cancelled]. *)
Theorem closed_bill_is_never_paid (calls : list LedgerCall)
    (svc : PaymentService.t) (id : Z) (b : Bill.t) :
  get svc id = Some b →
  Bill.status b = Failed ∨ Bill.status b = Cancelled →
  (∀ req now, PaymentRequest.bill req = id →
     pay svc req now
     = ([], Throw (runtime_error "Bill is not payable (status != Pending)") svc)) ∧
  ∃ st', get (ledger_run calls svc) id = Some (Bill.set_status st' b) ∧
         (st' = Failed ∨ st' = Cancelled) ∧
         (Bill.status b = Cancelled → st' = Cancelled).
Proof.
  intros Hb Hst. split.
  - intros req now <-. unfold pay. fold (get svc (PaymentRequest.bill req)).
    rewrite Hb. destruct Hst as [Hst|Hst]; rewrite Hst; done.
  - destruct (ledger_run_forward calls svc id b Hb) as (st' & Hget & Hf).
    exists st'. split; [done|]. unfold forward in Hf.
    destruct Hst as [Hst|Hst]; rewrite Hst in *; split;
      intuition congruence.
Qed.

Lemma closed_bill_is_never_paid_witness :
  pay declined_ledger cash_request 2000
  = ([], Throw (runtime_error "Bill is not payable (status != Pending)")
           declined_ledger).
Proof.
  destruct (closed_bill_is_never_paid [] declined_ledger 1
              (Bill.set_status Failed demo_bill) eq_refl (or_introl eq_refl))
    as [H _].
  exact (H cash_request 2000 eq_refl).
Defined.

(** ** The inventory is fixed *)

Lemma fmap_alter_same {A B} (g : A → B) (h : A → A) (i : nat) (l : list A) :
  (∀ x, g (h x) = g x) → g <$> alter h i l = g <$> l.
Proof.
  intros Hg. revert i. induction l as [|x l IH]; intros [|i]; simpl; try done.
  - by rewrite Hg.
  - f_equal. apply IH.
Qed.

Lemma layout_store_isFree (b : bool) (f i : nat) (floors : list Floor.t) :
  layout (store_isFree b f i floors) = layout floors.
Proof.
  unfold layout, store_isFree. apply fmap_alter_same.
  intros fl. simpl. f_equal. by apply fmap_alter_same.
Qed.

Lemma all_slots_layout (floors : list Floor.t) :
  (λ s, (ParkingSlot.id s, ParkingSlot.type s)) <$> all_slots floors
  = concat (snd <$> layout floors).
Proof.
  unfold all_slots, layout. induction floors as [|fl rest IH]; [done|].
  rewrite !fmap_cons, !concat_cons, fmap_app, IH. done.
Qed.

Lemma layout_step (lot : ParkingLot.t) (c : LotCall) :
  layout (ParkingLot.floors_ (lot_step lot c)) = layout (ParkingLot.floors_ lot).
Proof.
  destruct c as [gate v now|tid gate lost now out|req now|tid back]; simpl.
  - unfold enterVehicle. destruct (enter_scan _ _ _) as [cf idx].
    case_decide; [done|]. simpl. apply layout_store_isFree.
  - unfold exitVehicle. destruct (ParkingLot.active_ lot !! tid) as [tk|]; [|done].
    destruct (findSlotById_nolock lot _) as [[f i]|]; [|done].
    simpl. apply layout_store_isFree.
  - by destruct (payBill_frame lot req now) as (-> & _).
  - unfold adjustInTimeForTest. by destruct (ParkingLot.active_ lot !! tid).
Qed.

(** X9.  No call changes the inventory: after any sequence of
    [enterVehicle], [exitVehicle], [payBill] and [adjustInTimeForTest]
    calls, on any lot, the floors, their numbers and the ids and
    categories of their slots are what they were, in the same order, and
    [occupancy] reports the same total; only [isFree] flags change. *)
Theorem inventory_is_fixed (calls : list LotCall) (lot : ParkingLot.t) :
  layout (ParkingLot.floors_ (lot_run calls lot)) = layout (ParkingLot.floors_ lot) ∧
  (occupancy (lot_run calls lot)).2 = (occupancy lot).2.
Proof.
  assert (Hl : layout (ParkingLot.floors_ (lot_run calls lot))
               = layout (ParkingLot.floors_ lot)).
  { revert lot. induction calls as [|c calls IH]; intros lot; [done|].
    change (lot_run (c :: calls) lot) with (lot_run calls (lot_step lot c)).
    by rewrite IH, layout_step. }
  split; [done|]. rewrite !occupancy_counts. simpl. f_equal.
  rewrite <- (length_fmap (λ s, (ParkingSlot.id s, ParkingSlot.type s))
                (all_slots (ParkingLot.floors_ (lot_run calls lot)))).
  rewrite <- (length_fmap (λ s, (ParkingSlot.id s, ParkingSlot.type s))
                (all_slots (ParkingLot.floors_ lot))).
  by rewrite !all_slots_layout, Hl.
Qed.

(** ** The test seam *)

Lemma wrap_i64_small (z : Z) : INT64_MIN ≤ z ≤ INT64_MAX → wrap_i64 z = z.
Proof.
  unfold wrap_i64, INT64_MIN, INT64_MAX. intros H.
  rewrite Z.mod_small; lia.
Qed.

Lemma wrap_i64_range (z : Z) : INT64_MIN ≤ wrap_i64 z ≤ INT64_MAX.
Proof.
  unfold wrap_i64, INT64_MIN, INT64_MAX.
  pose proof (Z.mod_pos_bound (z + 2 ^ 63) (2 ^ 64) ltac:(lia)). lia.
Qed.

(** The minutes that [exitVehicle] hands to the fee strategy are never
    negative and fit the signed 64-bit count they come from. *)
Lemma elapsed_minutes_range (now inTime : Z) :
  0 ≤ elapsed_minutes now inTime ≤ INT64_MAX.
Proof.
  unfold elapsed_minutes. pose proof (wrap_i64_range (now - inTime)) as Hw.
  assert (HT : 0 < TICKS_PER_MINUTE) by done.
  case_decide as Hneg; [by vm_compute|]. split; [lia|].
  destruct (decide (0 ≤ wrap_i64 (now - inTime))) as [Hpos|Hpos].
  - rewrite Z.quot_div_nonneg by lia.
    pose proof (Z.div_le_upper_bound (wrap_i64 (now - inTime)) TICKS_PER_MINUTE
                  (wrap_i64 (now - inTime)) HT) as Hd.
    assert (wrap_i64 (now - inTime)
            ≤ TICKS_PER_MINUTE * wrap_i64 (now - inTime)) by nia.
    lia.
  - set (w := wrap_i64 (now - inTime)) in *.
    assert (Hq : w ÷ TICKS_PER_MINUTE ≤ 0).
    { pose proof (Z.quot_pos (- w) TICKS_PER_MINUTE ltac:(lia) HT) as Hp.
      rewrite Z.quot_opp_l in Hp by lia. lia. }
    assert (0 < INT64_MAX) by done. lia.
Qed.

Lemma elapsed_minutes_shift (now inTime minutesBack : Z) :
  0 ≤ minutesBack → inTime ≤ now → inTime ≤ INT64_MAX →
  INT64_MIN ≤ inTime - minutesBack * TICKS_PER_MINUTE →
  now - inTime + minutesBack * TICKS_PER_MINUTE ≤ INT64_MAX →
  wrap_i64 (inTime - wrap_i64 (minutesBack * TICKS_PER_MINUTE))
  = inTime - minutesBack * TICKS_PER_MINUTE ∧
  elapsed_minutes now
    (wrap_i64 (inTime - wrap_i64 (minutesBack * TICKS_PER_MINUTE)))
  = elapsed_minutes now inTime + minutesBack.
Proof.
  intros Hk Hle Hmax Hlow Hhigh.
  assert (HT : 0 < TICKS_PER_MINUTE) by done.
  assert (HM : INT64_MIN < 0 < INT64_MAX) by done.
  assert (0 ≤ minutesBack * TICKS_PER_MINUTE) by nia.
  rewrite (wrap_i64_small (minutesBack * TICKS_PER_MINUTE)) by lia.
  rewrite (wrap_i64_small (inTime - minutesBack * TICKS_PER_MINUTE)) by lia.
  split; [done|]. unfold elapsed_minutes.
  rewrite !wrap_i64_small by lia.
  replace (now - (inTime - minutesBack * TICKS_PER_MINUTE))
    with ((now - inTime) + minutesBack * TICKS_PER_MINUTE) by lia.
  rewrite !Z.quot_div_nonneg by lia.
  rewrite Z.div_add by lia.
  pose proof (Z.div_pos (now - inTime) TICKS_PER_MINUTE ltac:(lia) HT).
  repeat case_decide; lia.
Qed.

(** X10.  Moving an active ticket's entry time back by [minutesBack >= 0]
    minutes makes the exit that follows bill exactly that many more parked
    minutes, and changes nothing else the bill is computed from, provided
    the 64-bit tick arithmetic does not overflow: the entry time is not
    after the exit's clock reading, the shifted entry time is still a
    64-bit count, and so is the time parked after the shift. *)
Theorem adjustInTime_then_exit (lot : ParkingLot.t) (tid minutesBack : Z)
    (tk : Ticket.t) (exitGate : string) (lostTicket : bool) (now out : Z) :
  ParkingLot.active_ lot !! tid = Some tk →
  is_Some (findSlotById_nolock lot (Ticket.slotId tk)) →
  0 ≤ minutesBack → Ticket.inTime tk ≤ now → Ticket.inTime tk ≤ INT64_MAX →
  INT64_MIN ≤ Ticket.inTime tk - minutesBack * TICKS_PER_MINUTE →
  now - Ticket.inTime tk + minutesBack * TICKS_PER_MINUTE ≤ INT64_MAX →
  ∃ lot1 bill0 lot0' bill lot',
    adjustInTimeForTest lot tid minutesBack = Ret tt lot1 ∧
    exitVehicle lot tid exitGate lostTicket now out = Ret bill0 lot0' ∧
    exitVehicle lot1 tid exitGate lostTicket now out = Ret bill lot' ∧
    Bill.parkedMinutes bill0 = elapsed_minutes now (Ticket.inTime tk) ∧
    Bill.parkedMinutes bill
    = elapsed_minutes now (Ticket.inTime tk) + minutesBack ∧
    Bill.inTime bill = Ticket.inTime tk - minutesBack * TICKS_PER_MINUTE ∧
    Bill.slotId bill = Bill.slotId bill0 ∧ Bill.ticket bill = Bill.ticket bill0 ∧
    Bill.vehicleReg bill = Bill.vehicleReg bill0 ∧
    ParkingLot.floors_ lot' = ParkingLot.floors_ lot0' ∧
    ParkingLot.active_ lot' = ParkingLot.active_ lot0'.
Proof.
  intros Htk [[f i] Hf] Hk Hle Hmax Hlow Hhigh.
  destruct (elapsed_minutes_shift now (Ticket.inTime tk) minutesBack
              Hk Hle Hmax Hlow Hhigh) as [Hin Hel].
  pose proof (elapsed_minutes_range now (Ticket.inTime tk)) as Hr0.
  pose proof (elapsed_minutes_range now
                (wrap_i64 (Ticket.inTime tk
                           - wrap_i64 (minutesBack * TICKS_PER_MINUTE)))) as Hr1.
  assert (HM : INT64_MAX ≤ ULLONG_MAX) by (by vm_compute).
  unfold adjustInTimeForTest. rewrite Htk.
  do 5 eexists. split; [done|].
  split; [by apply (exitVehicle_found _ _ _ _ _ _ tk f i)|].
  split.
  { apply (exitVehicle_found _ _ _ _ _ _ (shift_inTime minutesBack tk) f i).
    - simpl. by rewrite lookup_alter_eq, Htk.
    - done. }
  simpl. rewrite Hin. rewrite Hin in Hel, Hr1.
  rewrite (wrap64_small (elapsed_minutes now (Ticket.inTime tk))) by lia.
  rewrite wrap64_small by lia. rewrite Hel.
  repeat split.
  - destruct lostTicket; simpl; rewrite compute_unfold; by case_decide.
  - destruct lostTicket; simpl; rewrite compute_unfold; by case_decide.
  - apply map_eq. intros k. destruct (decide (tid = k)) as [<-|Hne].
    + by rewrite !lookup_delete_eq.
    + by rewrite !lookup_delete_ne, lookup_alter_ne.
Qed.

Lemma adjustInTime_then_exit_witness :
  ∃ bill lot',
    exitVehicle (state_after (adjustInTimeForTest lost_lot 1 65)) 1 "X3" false 0 0
    = Ret bill lot' ∧
    Bill.parkedMinutes bill = 95.
Proof.
  destruct (adjustInTime_then_exit lost_lot 1 65 lost_ticket "X3" false 0 0
              eq_refl (ex_intro _ (0%nat, 2%nat) eq_refl))
    as (lot1 & bill0 & lot0' & bill & lot' & H1 & _ & H2 & _ & H3 & _).
  - vm_compute. discriminate.
  - vm_compute. discriminate.
  - vm_compute. discriminate.
  - vm_compute. discriminate.
  - vm_compute. discriminate.
  - exists bill, lot'. injection H1 as <-. split; [exact H2|exact H3].
Defined.

(** Where the 64-bit arithmetic gives out: 153722867 minutes are the most
    whose tick count fits, and one minute more wraps, so that the entry
    time lands after the clock reading and the exit bills no minutes. *)
Lemma adjustInTime_at_the_int64_edge :
  (Bill.parkedMinutes
     <$> (match exitVehicle
                  (state_after (adjustInTimeForTest parked_lot 1 153722867))
                  1 "X2" false clock_2026 clock_2026 with
          | Ret bill _ => Some bill
          | Throw _ _ => None
          end)) = Some 153722867 ∧
  (Bill.parkedMinutes
     <$> (match exitVehicle
                  (state_after (adjustInTimeForTest parked_lot 1 153722868))
                  1 "X2" false clock_2026 clock_2026 with
          | Ret bill _ => Some bill
          | Throw _ _ => None
          end)) = Some 0.
Proof. by vm_compute. Qed.

(** ** Slots and tickets *)

Lemma counters_eq (a b c a' b' c' : Z) :
  a = a' → b = b' → c = c' → (a, b, c) = (a', b', c').
Proof. by intros -> -> ->. Qed.

Lemma free_count_middle (l1 l2 : list ParkingSlot.t) (s : ParkingSlot.t) :
  free_count (l1 ++ s :: l2)
  = (free_count l1 + (if ParkingSlot.isFree s then 1 else 0) + free_count l2)%nat.
Proof.
  unfold free_count at 1. rewrite filter_app, length_app.
  fold (free_count l1) (free_count (s :: l2)). rewrite free_count_cons. lia.
Qed.

(** X11.  Entering never disturbs what is parked: on any lot, an
    [enterVehicle] that returns lowers the free count that [occupancy]
    reports by one, raises the used count by one, keeps the total, and
    keeps every active ticket as it was. *)
Theorem enterVehicle_occupancy (lot lot' : ParkingLot.t) (entryGate : string)
    (v : Vehicle.t) (now tid : Z) :
  enterVehicle lot entryGate v now = Ret tid lot' →
  occupancy lot'
  = ((occupancy lot).1.1 - 1, (occupancy lot).1.2 + 1, (occupancy lot).2) ∧
  0 < (occupancy lot).1.1 ∧
  ∀ k tk, ParkingLot.active_ lot !! k = Some tk →
          ParkingLot.active_ lot' !! k = Some tk.
Proof.
  intros Henter.
  destruct (enterVehicle_spec lot entryGate v now)
    as [[Hr _]|(f & i & s & Hl & [_ Hfree] & _ & Hr)]; rewrite Hr in Henter;
    [done|].
  injection Henter as <- <-.
  destruct (store_isFree_split false f i _ s Hl) as (l1 & l2 & Hall & Hall').
  rewrite !occupancy_counts. simpl.
  rewrite Hall, Hall', !free_count_middle, !used_count_middle, !length_app.
  simpl. rewrite Hfree. split; [|split].
  - apply counters_eq; lia.
  - lia.
  - intros k tk Hk. by apply emplace_lookup_Some.
Qed.

Lemma enterVehicle_occupancy_witness :
  occupancy (state_after (enterVehicle (configure demo_floors new_lot)
                            "E1" demo_bike 0))
  = (4, 1, 5).
Proof.
  destruct (enterVehicle_occupancy (configure demo_floors new_lot)
              (state_after (enterVehicle (configure demo_floors new_lot)
                              "E1" demo_bike 0))
              "E1" demo_bike 0 1 eq_refl) as [H _].
  exact H.
Defined.

(** X12.  Slot exclusivity.  In a lot configured with pairwise distinct
    slot ids and all slots free, after fewer than 2^64 - 1 calls, no two
    active tickets are bound to the same slot id, and the slot an active
    ticket is bound to exists and is occupied. *)
Theorem one_ticket_per_slot (fs : list Floor.t) (lot0 : ParkingLot.t)
    (calls : list LotCall) :
  NoDup (ParkingSlot.id <$> all_slots fs) →
  Forall (λ s, ParkingSlot.isFree s = true) (all_slots fs) →
  Z.of_nat (length calls) < ULLONG_MAX →
  let lot := lot_run calls (configure fs lot0) in
  (∀ k1 k2 tk1 tk2,
     ParkingLot.active_ lot !! k1 = Some tk1 →
     ParkingLot.active_ lot !! k2 = Some tk2 →
     Ticket.slotId tk1 = Ticket.slotId tk2 → k1 = k2) ∧
  (∀ k tk, ParkingLot.active_ lot !! k = Some tk →
     ∃ (f i : nat) s,
       slot_lookup (ParkingLot.floors_ lot) f i = Some s ∧
       ParkingSlot.id s = Ticket.slotId tk ∧ ParkingSlot.isFree s = false).
Proof.
  intros Hnd Hfree Hlen lot.
  pose proof (lot_inv_configure fs lot0 Hnd Hfree) as H0.
  apply (lot_inv_run calls) in H0; [|lia]. fold lot in H0.
  destruct H0 as [_ _ _ Hslot Hinj _].
  split; [exact Hinj|].
  intros k tk Hk. destruct (Hslot k tk Hk) as (s & Hs & Hid & Hocc).
  apply elem_of_all_slots in Hs as (fl & [f Hf]%list_elem_of_lookup
                                       & [i Hi]%list_elem_of_lookup).
  exists f, i, s. unfold slot_lookup. rewrite Hf. done.
Qed.

Lemma one_ticket_per_slot_witness :
  let lot := lot_run [Enter "E1" demo_bike 0; Enter "E2" demo_bike 0]
               (configure demo_floors new_lot) in
  ∃ (f i : nat) s,
    slot_lookup (ParkingLot.floors_ lot) f i = Some s ∧
    ParkingSlot.id s = "F1-S2" ∧ ParkingSlot.isFree s = false.
Proof.
  destruct (one_ticket_per_slot demo_floors new_lot
              [Enter "E1" demo_bike 0; Enter "E2" demo_bike 0]) as [_ H].
  - apply (bool_decide_eq_true_1
             (NoDup (ParkingSlot.id <$> all_slots demo_floors))).
    reflexivity.
  - repeat constructor.
  - reflexivity.
  - exact (H 2 (Ticket.mk 2 "E2" 0 "F1-S2" Bike TwoWheeler "UP80 HM 8086")
             eq_refl).
Defined.

(** X13.  In such a lot the exit of an active ticket always returns: it
    frees the one slot the ticket is bound to, which was occupied, leaves
    every other slot as it was, removes the ticket, and [occupancy] then
    reports one more free slot and one less used slot. *)
Theorem exitVehicle_frees_bound_slot (fs : list Floor.t) (lot0 : ParkingLot.t)
    (calls : list LotCall) (tid : Z) (tk : Ticket.t) (exitGate : string)
    (lostTicket : bool) (now out : Z) :
  NoDup (ParkingSlot.id <$> all_slots fs) →
  Forall (λ s, ParkingSlot.isFree s = true) (all_slots fs) →
  Z.of_nat (length calls) < ULLONG_MAX →
  let lot := lot_run calls (configure fs lot0) in
  ParkingLot.active_ lot !! tid = Some tk →
  ∃ bill lot' (f i : nat) s,
    exitVehicle lot tid exitGate lostTicket now out = Ret bill lot' ∧
    slot_lookup (ParkingLot.floors_ lot) f i = Some s ∧
    ParkingSlot.id s = Ticket.slotId tk ∧ ParkingSlot.isFree s = false ∧
    slot_lookup (ParkingLot.floors_ lot') f i = Some (with_isFree true s) ∧
    (∀ f' i' : nat, (f', i') ≠ (f, i) →
       slot_lookup (ParkingLot.floors_ lot') f' i'
       = slot_lookup (ParkingLot.floors_ lot) f' i') ∧
    ParkingLot.active_ lot' = delete tid (ParkingLot.active_ lot) ∧
    occupancy lot'
    = ((occupancy lot).1.1 + 1, (occupancy lot).1.2 - 1, (occupancy lot).2) ∧
    activeCount lot' = activeCount lot - 1.
Proof.
  intros Hnd Hfree Hlen lot Htk.
  pose proof (lot_inv_configure fs lot0 Hnd Hfree) as H0.
  apply (lot_inv_run calls) in H0; [|lia]. fold lot in H0.
  destruct H0 as [Hids _ _ Hslot _ _].
  destruct (Hslot tid tk Htk) as (s0 & Hs0 & Hid0 & Hocc0).
  destruct (findSlotById_nolock_spec lot (Ticket.slotId tk))
    as [[_ Hnone]|(f & i & s & Hfind & Hl & Hid)].
  { by destruct (Hnone s0 Hs0). }
  assert (s0 = s) as ->.
  { apply (NoDup_slot_ids _ _ _ Hids Hs0); [|congruence].
    by eapply slot_lookup_elem_of. }
  destruct (store_isFree_split true f i _ s Hl) as (l1 & l2 & Hall & Hall').
  do 2 eexists. exists f, i, s.
  split; [by apply (exitVehicle_found _ _ _ _ _ _ tk f i)|]. simpl.
  do 3 (split; [done|]).
  split; [by rewrite slot_lookup_store_eq, Hl|].
  split; [intros; by apply slot_lookup_store_ne|].
  split; [done|].
  rewrite !occupancy_counts. simpl. unfold activeCount. simpl.
  rewrite Hall, Hall', !free_count_middle, !used_count_middle, !length_app.
  simpl. rewrite Hocc0.
  rewrite map_size_delete_Some by eauto.
  assert (size (ParkingLot.active_ lot) ≠ 0%nat).
  { intros Hz. apply map_size_empty_inv in Hz. by rewrite Hz in Htk. }
  split; [apply counters_eq; lia | lia].
Qed.

Lemma exitVehicle_frees_bound_slot_witness :
  ∃ bill lot',
    exitVehicle lost_lot 1 "X3" false 0 0 = Ret bill lot' ∧
    occupancy lot' = (5, 0, 5) ∧ activeCount lot' = 0.
Proof.
  destruct (exitVehicle_frees_bound_slot demo_floors new_lot
              [Enter "E3" demo_car 0; AdjustInTime 1 30] 1 lost_ticket
              "X3" false 0 0) as (bill & lot' & f & i & s & H & _ & _ & _ & _ & _ & _ & Ho & Ha).
  - apply (bool_decide_eq_true_1
             (NoDup (ParkingSlot.id <$> all_slots demo_floors))).
    reflexivity.
  - repeat constructor.
  - reflexivity.
  - reflexivity.
  - exists bill, lot'. split; [exact H|]. split; [exact Ho|exact Ha].
Defined.

(** ** Reconfiguration *)

(** X14.  [configure] starts the lot afresh whatever it held: it installs
    the floors with the flags they come with, after which no ticket is
    active, so every [exitVehicle] and [adjustInTimeForTest] throws and
    changes nothing; no bill is known, so every [payBill] throws "Bill not
    found" without calling a processor; and the next ticket issued has id
    1.  Configuring twice is the same as configuring once with the last
    floors. *)
Theorem configure_starts_afresh (fs : list Floor.t) (lot : ParkingLot.t) :
  let lot' := configure fs lot in
  occupancy lot'
  = (Z.of_nat (free_count (all_slots fs)), Z.of_nat (used_count (all_slots fs)),
     Z.of_nat (length (all_slots fs))) ∧
  activeCount lot' = 0 ∧
  (∀ tid exitGate lostTicket now out,
     exitVehicle lot' tid exitGate lostTicket now out
     = Throw (runtime_error "Invalid or already-closed ticket") lot') ∧
  (∀ tid minutesBack,
     adjustInTimeForTest lot' tid minutesBack
     = Throw (runtime_error "Ticket not found for adjustInTime") lot') ∧
  (∀ req now,
     payBill lot' req now = ([], Throw (runtime_error "Bill not found") lot')) ∧
  (∀ entryGate v now tid lot'',
     enterVehicle lot' entryGate v now = Ret tid lot'' → tid = 1) ∧
  (∀ fs', configure fs' lot' = configure fs' lot).
Proof.
  intros lot'. split; [apply occupancy_counts|]. split; [done|].
  split; [done|]. split; [done|]. split; [done|]. split; [|done].
  intros gate v now tid lot'' Henter.
  destruct (enterVehicle_spec lot' gate v now)
    as [[Hr _]|(f & i & s & _ & _ & _ & Hr)]; rewrite Hr in Henter; [done|].
  by injection Henter as <- _.
Qed.

(** ** Reading a document *)

Lemma exn_bind_inr {A B} (a : A) (k : A → exn + B) : inr a ≫= k = k a.
Proof. done. Qed.

Lemma load_slots_reads (jslots : list json) (slots0 slots : list ParkingSlot.t) :
  load_slots jslots slots0 = inr slots ↔
  ∃ new, slots = slots0 ++ new ∧ Forall2 slot_reads jslots new.
Proof.
  revert slots0 slots. induction jslots as [|js rest IH]; intros slots0 slots; simpl.
  - split.
    + intros [= <-]. exists []. rewrite app_nil_r. by split; [|constructor].
    + intros (new & -> & ->%Forall2_nil_inv_l). by rewrite app_nil_r.
  - split.
    + intros (jid & Hjid & (id & Hid & (jtype & Hjt & (ty & Hty & (t & Ht & H)
                %bind_inr)%bind_inr)%bind_inr)%bind_inr)%bind_inr.
      apply IH in H as (new & -> & Hnew).
      exists (ParkingSlot.mk id t true :: new). rewrite <- app_assoc.
      split; [done|]. constructor; [|done].
      unfold slot_reads. cbn [ParkingSlot.id ParkingSlot.type ParkingSlot.isFree].
      rewrite Hjid, Hjt, !exn_bind_inr. cbv beta.
      rewrite Hid, Hty, !exn_bind_inr. cbv beta. by rewrite Ht.
    + intros (new & -> & Hnew).
      apply Forall2_cons_inv_l in Hnew as (s & new' & (Hid & Hty & Hfree) & Hnew & ->).
      apply bind_inr in Hid as (jid & Hjid & Hid).
      rewrite Hjid, exn_bind_inr. cbv beta. rewrite Hid, exn_bind_inr. cbv beta.
      apply bind_inr in Hty as (jtype & Hjt & (ty & Hgs & Hty)%bind_inr).
      rewrite Hjt, exn_bind_inr. cbv beta. rewrite Hgs, exn_bind_inr. cbv beta.
      rewrite Hty, exn_bind_inr. cbv beta.
      apply IH. exists new'. split; [|done].
      rewrite <- app_assoc. simpl. destruct s; simpl in *. by subst.
Qed.

Lemma load_floor_reads (jf : json) (fl : Floor.t) :
  load_floor jf = inr fl ↔ floor_reads jf fl.
Proof.
  unfold load_floor, floor_reads. split.
  - intros (jno & Hjno & (floorNo & Hno & (jslots & Hjs & H)%bind_inr)
              %bind_inr)%bind_inr.
    destruct jslots as [| | | |items|]; try done.
    apply bind_inr in H as (slots & Hs & H).
    apply load_slots_reads in Hs as (new & -> & Hnew). simpl in H.
    destruct new as [|s new]; [done|]. injection H as <-. simpl.
    rewrite Hjno. simpl. split; [done|]. exists items. split; [done|].
    split; [done|]. intros ->. by apply Forall2_nil_inv_l in Hnew.
  - intros (Hno & items & Hjs & Hslots & Hne).
    apply bind_inr in Hno as (jno & -> & Hno). simpl. rewrite Hno. simpl.
    rewrite Hjs. simpl.
    assert (Hl : load_slots items [] = inr (Floor.slots fl))
      by (apply load_slots_reads; by exists (Floor.slots fl)).
    rewrite Hl. simpl. destruct fl as [no [|s slots]]; simpl in *; [|done].
    apply Forall2_nil_inv_r in Hslots. done.
Qed.

Lemma load_floors_reads (jfloors : list json) (fs0 fs : list Floor.t) :
  load_floors jfloors fs0 = inr fs ↔
  ∃ new, fs = fs0 ++ new ∧ Forall2 floor_reads jfloors new.
Proof.
  revert fs0 fs. induction jfloors as [|jf rest IH]; intros fs0 fs; simpl.
  - split.
    + intros [= <-]. exists []. rewrite app_nil_r. by split; [|constructor].
    + intros (new & -> & ->%Forall2_nil_inv_l). by rewrite app_nil_r.
  - split.
    + intros (fl & Hfl & H)%bind_inr.
      apply IH in H as (new & -> & Hnew).
      exists (fl :: new). rewrite <- app_assoc. split; [done|].
      constructor; [by apply load_floor_reads|done].
    + intros (new & -> & Hnew).
      apply Forall2_cons_inv_l in Hnew as (fl & new' & Hfl & Hnew & ->).
      apply load_floor_reads in Hfl. rewrite Hfl. simpl.
      apply IH. exists new'. by rewrite <- app_assoc.
Qed.

(** X15.  What [loadConfigFromJson] accepts, exactly: it returns a layout
    if and only if the file holds a document whose "floors" member is a
    non-empty array and every element of it has an integer "floorNo" and
    a non-empty "slots" array whose elements each have a string "id" and a
    "type" among "TwoWheeler", "FourWheeler", "Heavy"; the layout then has
    one floor per element and one free slot per slot element, in the
    document's order, with those numbers, ids and categories. *)
Theorem loadConfigFromJson_reads (disk : string → file) (path : string)
    (fs : list Floor.t) :
  loadConfigFromJson disk path = inr fs ↔
  ∃ j jfloors,
    disk path = Document j ∧ must j "floors" = inr (JArray jfloors) ∧
    Forall2 floor_reads jfloors fs ∧ jfloors ≠ [].
Proof.
  unfold loadConfigFromJson. split.
  - destruct (disk path) as [| |j]; try done.
    intros (jfloors & Hj & H)%bind_inr.
    destruct jfloors as [| | | |items|]; try done.
    apply bind_inr in H as (fs' & Hfs & H).
    apply load_floors_reads in Hfs as (new & -> & Hnew). simpl in H.
    destruct new as [|fl new]; [done|]. injection H as <-.
    exists j, items. do 3 (split; [done|]).
    intros ->. by apply Forall2_nil_inv_l in Hnew.
  - intros (j & items & -> & -> & Hfs & Hne). simpl.
    assert (Hl : load_floors items [] = inr fs)
      by (apply load_floors_reads; by exists fs).
    rewrite Hl. simpl. destruct fs as [|fl fs]; [|done].
    by apply Forall2_nil_inv_r in Hfs.
Qed.

(** X16.  How the loader reports what it cannot read: a file that cannot
    be opened gives "Could not open config file: " followed by the path; a
    document without a "floors" member (or that is no object) gives
    "Config missing key: floors"; a "floors" member that is no array gives
    "Config 'floors' must be an array"; and a slot category other than the
    three names, which are matched exactly, gives "Invalid SlotType in
    config: " followed by the text. *)
Theorem loadConfigFromJson_errors (disk : string → file) (path : string) :
  (disk path = NoFile →
   loadConfigFromJson disk path
   = inl (runtime_error (String.append "Could not open config file: " path))) ∧
  (∀ j, disk path = Document j →
     (∀ members, j = JObject members → member "floors" members = None) →
     loadConfigFromJson disk path
     = inl (runtime_error "Config missing key: floors")) ∧
  (∀ j v, disk path = Document j → must j "floors" = inr v →
     (∀ items, v ≠ JArray items) →
     loadConfigFromJson disk path
     = inl (runtime_error "Config 'floors' must be an array")) ∧
  (∀ s, (slotTypeFromString s = inr TwoWheeler ↔ s = "TwoWheeler") ∧
        (slotTypeFromString s = inr FourWheeler ↔ s = "FourWheeler") ∧
        (slotTypeFromString s = inr Heavy ↔ s = "Heavy") ∧
        (s ≠ "TwoWheeler" → s ≠ "FourWheeler" → s ≠ "Heavy" →
         slotTypeFromString s
         = inl (runtime_error
                  (String.append "Invalid SlotType in config: " s)))).
Proof.
  unfold loadConfigFromJson. split; [by intros ->|]. split; [|split].
  - intros j -> Hno.
    destruct j as [| | | | |members]; simpl; try done.
    by rewrite (Hno members eq_refl).
  - intros j v -> -> Hv. simpl.
    destruct v as [| | | |items|]; try done. by destruct (Hv items).
  - intros s. unfold slotTypeFromString.
    repeat split; repeat case_decide; subst; done.
Qed.

(** ** A freed slot can be taken again *)

Lemma slots_step (lot : ParkingLot.t) (c : LotCall) :
  (λ s, (ParkingSlot.id s, ParkingSlot.type s))
    <$> all_slots (ParkingLot.floors_ (lot_step lot c))
  = (λ s, (ParkingSlot.id s, ParkingSlot.type s))
      <$> all_slots (ParkingLot.floors_ lot).
Proof. by rewrite !all_slots_layout, layout_step. Qed.

Lemma tickets_typed_step (lot : ParkingLot.t) (c : LotCall) :
  tickets_typed lot → tickets_typed (lot_step lot c).
Proof.
  unfold tickets_typed. intros Ht. rewrite slots_step.
  destruct c as [gate v now|tid gate lost now out|req now|tid back]; simpl.
  - destruct (enterVehicle_spec lot gate v now)
      as [[-> _]|(f & i & s & Hl & _ & _ & ->)]; [done|]. simpl.
    unfold emplace. destruct (ParkingLot.active_ lot !! _) eqn:E; [done|].
    intros k tk [[<- <-]|[_ Hk]]%lookup_insert_Some; [|eauto]. simpl.
    apply list_elem_of_fmap. exists s. eauto using slot_lookup_elem_of.
  - unfold exitVehicle.
    destruct (ParkingLot.active_ lot !! tid) as [tk|] eqn:Htk; [|done].
    destruct (findSlotById_nolock lot (Ticket.slotId tk)) as [[f i]|]; simpl;
      intros k tk' [_ Hk]%lookup_delete_Some; eauto.
  - destruct (payBill_frame lot req now) as (_ & -> & _). done.
  - unfold adjustInTimeForTest.
    destruct (ParkingLot.active_ lot !! tid) as [tk0|] eqn:Htk; [|done]. simpl.
    intros k tk. destruct (decide (tid = k)) as [<-|Hne].
    + rewrite lookup_alter_eq, Htk. simpl. intros [= <-]. simpl. eauto.
    + rewrite lookup_alter_ne by done. eauto.
Qed.

Lemma tickets_typed_run (fs : list Floor.t) (lot0 : ParkingLot.t)
    (calls : list LotCall) :
  tickets_typed (lot_run calls (configure fs lot0)).
Proof.
  unfold lot_run.
  assert (H0 : tickets_typed (configure fs lot0)) by (by intros k tk ?).
  revert H0. generalize (configure fs lot0).
  induction calls as [|c calls IH]; intros lot Hb; simpl; [done|].
  apply IH. by apply tickets_typed_step.
Qed.

(** X18.  A freed slot can be taken again: in a lot configured with
    pairwise distinct slot ids and all slots free, after fewer than
    2^64 - 1 calls, the exit of an active ticket returns, and right after
    it an [enterVehicle] of any vehicle of the category the ticket was
    issued for returns as well. *)
Theorem exit_makes_room (fs : list Floor.t) (lot0 : ParkingLot.t)
    (calls : list LotCall) (tid : Z) (tk : Ticket.t) (exitGate : string)
    (lostTicket : bool) (now out : Z) (entryGate : string) (v : Vehicle.t)
    (now2 : Z) :
  NoDup (ParkingSlot.id <$> all_slots fs) →
  Forall (λ s, ParkingSlot.isFree s = true) (all_slots fs) →
  Z.of_nat (length calls) < ULLONG_MAX →
  let lot := lot_run calls (configure fs lot0) in
  ParkingLot.active_ lot !! tid = Some tk →
  slotFor (Vehicle.type v) = Ticket.stype tk →
  ∃ bill lot' tid' lot'',
    exitVehicle lot tid exitGate lostTicket now out = Ret bill lot' ∧
    enterVehicle lot' entryGate v now2 = Ret tid' lot''.
Proof.
  intros Hnd Hfree Hlen lot Htk Hcat.
  pose proof (lot_inv_configure fs lot0 Hnd Hfree) as H0.
  apply (lot_inv_run calls) in H0; [|lia]. fold lot in H0.
  destruct H0 as [Hids _ _ Hslot _ _].
  pose proof (tickets_typed_run fs lot0 calls tid tk Htk) as Hty.
  apply list_elem_of_fmap in Hty as (s1 & [= Hid1 Hty1] & Hs1).
  destruct (findSlotById_nolock_spec lot (Ticket.slotId tk))
    as [[_ Hnone]|(f & i & s & Hfind & Hl & Hid)].
  { destruct (Hnone s1 Hs1). done. }
  assert (s1 = s) as ->.
  { apply (NoDup_slot_ids _ _ _ Hids Hs1); [|congruence].
    by eapply slot_lookup_elem_of. }
  rewrite (exitVehicle_found lot tid exitGate lostTicket now out tk f i Htk Hfind).
  do 2 eexists.
  match goal with |- ∃ tid' lot'', Ret ?b ?l = _ ∧ _ => set (lot' := l) end.
  destruct (enterVehicle_spec lot' entryGate v now2)
    as [[_ Hall]|(f' & i' & s' & _ & _ & _ & Hr)].
  - destruct (Hall (with_isFree true s)).
    + apply (slot_lookup_elem_of _ f i). subst lot'. simpl.
      by rewrite slot_lookup_store_eq, Hl.
    + split; simpl; [congruence|done].
  - do 2 eexists. split; [done|exact Hr].
Qed.

Lemma exit_makes_room_witness :
  ∃ bill lot' tid' lot'',
    exitVehicle full_heavy_lot 1 "X1" false 0 0 = Ret bill lot' ∧
    enterVehicle lot' "E2" (Vehicle.mk "HR55 T 0002" Truck) 5 = Ret tid' lot''.
Proof.
  apply (exit_makes_room demo_floors new_lot
           [Enter "E1" (Vehicle.mk "HR55 T 0001" Truck) 0] 1
           (Ticket.mk 1 "E1" 0 "F2-S2" Truck Heavy "HR55 T 0001")).
  - apply (bool_decide_eq_true_1
             (NoDup (ParkingSlot.id <$> all_slots demo_floors))).
    reflexivity.
  - repeat constructor.
  - reflexivity.
  - reflexivity.
  - reflexivity.
Defined.

(** ** The first stage *)

Lemma string_app_assoc (a b c : string) :
  String.append (String.append a b) c = String.append a (String.append b c).
Proof.
  induction a as [|x a IH]; [done|].
  change (String x (String.append (String.append a b) c)
          = String x (String.append a (String.append b c))).
  by rewrite IH.
Qed.

Lemma string_app_nil_r (a : string) : String.append a "" = a.
Proof.
  induction a as [|x a IH]; [done|].
  change (String x (String.append a "") = String x a). by rewrite IH.
Qed.

Lemma stage1_count_of_snoc (t : SlotType) (l : list Stage1.Slot) (j : Stage1.Slot) :
  Stage1.count_of t (l ++ [j])
  = Stage1.count_of t l + (if decide (Stage1.slotType j = t) then 1 else 0).
Proof.
  unfold Stage1.count_of. rewrite filter_app, length_app, filter_cons, filter_nil.
  case_decide; simpl; lia.
Qed.

(** The counters after a run of the inner loop are the counts of all the
    slots seen. *)
Lemma stage1_count_slots (seen l : list Stage1.Slot) :
  foldl Stage1.count_slot (Stage1.counts seen) l = Stage1.counts (seen ++ l).
Proof.
  revert seen. induction l as [|j l IH]; intros seen; simpl.
  - by rewrite app_nil_r.
  - replace (seen ++ j :: l) with ((seen ++ [j]) ++ l) by by rewrite <- app_assoc.
    rewrite <- IH. f_equal. unfold Stage1.counts, Stage1.count_slot.
    rewrite !stage1_count_of_snoc.
    destruct (Stage1.slotType j); repeat case_decide; try done;
      apply counters_eq; lia.
Qed.

Lemma stage1_occupancy_from (seen : list Stage1.Slot) (out : string)
    (fls : list Stage1.Floor) :
  (foldl Stage1.occupancy_floor (Stage1.counts seen, out) fls).2
  = String.append out (Stage1.report seen fls).
Proof.
  revert seen out. induction fls as [|s rest IH]; intros seen out.
  - simpl. by rewrite string_app_nil_r.
  - cbn [foldl Stage1.report].
    replace (Stage1.occupancy_floor (Stage1.counts seen, out) s)
      with (Stage1.counts (seen ++ Stage1.slots s),
            String.append out
              (Stage1.print_floor s (Stage1.counts (seen ++ Stage1.slots s)))).
    + by rewrite IH, string_app_assoc.
    + unfold Stage1.occupancy_floor. cbn [fst snd].
      by rewrite stage1_count_slots.
Qed.

Lemma stage1_occupancy_report (lot : Stage1.ParkingLot) :
  Stage1.occupancy lot = Stage1.report [] (Stage1.floors lot).
Proof.
  unfold Stage1.occupancy. change (0, 0, 0) with (Stage1.counts []).
  by rewrite stage1_occupancy_from.
Qed.

Lemma stage1_counts_flags (h : Stage1.Slot → bool) (l : list Stage1.Slot) :
  Stage1.counts
    ((λ j, Stage1.mkSlot (Stage1.slotid j) (Stage1.slotType j) (h j)) <$> l)
  = Stage1.counts l.
Proof.
  unfold Stage1.counts, Stage1.count_of.
  assert (Hf : ∀ t,
            length (filter (λ j, Stage1.slotType j = t)
                      ((λ j, Stage1.mkSlot (Stage1.slotid j) (Stage1.slotType j)
                               (h j)) <$> l))
            = length (filter (λ j, Stage1.slotType j = t) l)).
  { intros t. induction l as [|j l IH]; [done|].
    rewrite fmap_cons, !filter_cons. simpl.
    case_decide; simpl; by rewrite IH. }
  by rewrite !Hf.
Qed.

Lemma stage1_report_flags (h : Stage1.Slot → bool) (fls : list Stage1.Floor)
    (seen : list Stage1.Slot) :
  let g := λ j, Stage1.mkSlot (Stage1.slotid j) (Stage1.slotType j) (h j) in
  Stage1.report (g <$> seen)
    ((λ s, Stage1.mkFloor (Stage1.floorid s) (g <$> Stage1.slots s)) <$> fls)
  = Stage1.report seen fls.
Proof.
  intros g. revert seen. induction fls as [|s rest IH]; intros seen; [done|].
  rewrite fmap_cons. cbn [Stage1.report Stage1.slots].
  rewrite <- fmap_app, IH. f_equal.
  unfold Stage1.print_floor. cbn [Stage1.floorid].
  subst g. by rewrite stage1_counts_flags.
Qed.

(** X17.  The first stage's [occupancy] never resets its counters: the
    figures it writes for a floor count, per category, the slots of that
    floor and of all floors before it; and they count every slot, whatever
    its [isFalse] flag. *)
Theorem stage1_occupancy_accumulates (lot : Stage1.ParkingLot) :
  Stage1.occupancy lot = Stage1.report [] (Stage1.floors lot) ∧
  ∀ h : Stage1.Slot → bool,
    Stage1.occupancy
      (Stage1.mkLot
         ((λ s, Stage1.mkFloor (Stage1.floorid s)
                  ((λ j, Stage1.mkSlot (Stage1.slotid j) (Stage1.slotType j) (h j))
                     <$> Stage1.slots s))
            <$> Stage1.floors lot))
    = Stage1.occupancy lot.
Proof.
  split; [apply stage1_occupancy_report|]. intros h.
  rewrite !stage1_occupancy_report. cbn [Stage1.floors].
  apply (stage1_report_flags h (Stage1.floors lot) []).
Qed.

(** What [main] of the first stage writes. *)
Lemma stage1_main_output :
  Stage1.occupancy (Stage1.configure [Stage1.main_floor] (Stage1.mkLot []))
  = String.concat Stage1.endl
      ["Floor:1"; "Number Car slots Avaible:2";
       "Number of Bike Slots Avaible: 2"; "Number of heavt 1"].
Proof. by vm_compute. Qed.
